(** * Distributed query dispatcher (algorithms/distributed_query/main.go)

    A shallow embedding of [DistributedQuery]: one goroutine per replica
    running a bounded retry loop, a goroutine that closes the result channel
    once the wait group drains, and the collecting loop of the caller.

    Goroutines are embedded as program counters inside one [session] record;
    a scheduler [event] selects which goroutine moves (or that time passes, a
    timer fires, a replica call returns).  [step] is an executable function,
    [run] folds it over a schedule, and properties of the program are
    invariants of every state reachable from [DistributedQuery query replicas].

    Time is a clock in nanoseconds that [EvTick] advances; a timer can fire
    once the clock has reached its expiry.  A select with several ready
    branches takes any of them: each branch is an event of its own.  The
    records carry a few history fields the program never reads (the calls a
    goroutine has finished, what it has sent, what the collector has taken
    from the channel); the results are stated with them.
*)

From stdpp Require Import base list sets strings.
From Stdlib Require Import ZArith Lia.

(** ** Errors *)

(** Go error values as far as the program can tell them apart: the
    package-level sentinel [ErrNotFound], other [errors.New] values, errors
    wrapping another one ([fmt.Errorf] with the w verb, which gives the
    result an [Unwrap] method), and the two errors of package context.  The
    sentinel is a constructor of its own: another [errors.New] value with the
    same text is a different error. *)
Inductive error : Type :=
  | ErrNotFound
  | errors_New (msg : string)
  | fmt_Errorf_w (msg : string) (inner : error)
  | context_Canceled
  | context_DeadlineExceeded.

#[global] Instance error_eq_dec : EqDecision error.
Proof. solve_decision. Defined.

(** [errors.Is]: compare with the target, then follow [Unwrap]. *)
Fixpoint errors_Is (err target : error) : bool :=
  bool_decide (err = target) ||
  match err with
  | fmt_Errorf_w _ inner => errors_Is inner target
  | _ => false
  end.

(** The error followed by what [Unwrap] yields, repeatedly. *)
Fixpoint unwrap_chain (err : error) : list error :=
  err ::
  match err with
  | fmt_Errorf_w _ inner => unwrap_chain inner
  | _ => []
  end.

(** ** Data *)

Record Response : Type := mkResponse {
  Message : string;
  Err : option error;
  Host : string
}.

(** [time.Duration] counts nanoseconds. *)
Definition Millisecond : Z := 1000000.
Definition Second : Z := 1000 * Millisecond.

Definition maxAttempts : nat := 3.
Definition retryInterval : Z := 500 * Millisecond.
Definition totalTimeout : Z := 2 * Second.

(** The two errors [DistributedQuery] builds itself (lines 102 and 123);
    [fmt.Errorf] without the w verb wraps nothing, and a [time.Duration] of
    two seconds prints as 2s. *)
Definition errAllFailed : error :=
  errors_New "all replicas failed after multiple retries".
Definition errTimedOut : error :=
  errors_New "query timed out after 2s".

(** What [DistributedQuery] returns: [(string, error)]. *)
Definition result : Type := string * option error.

(** Line 68: [err == nil || errors.Is(err, ErrNotFound)]. *)
Definition terminal (err : option error) : bool :=
  match err with
  | None => true
  | Some e => errors_Is e ErrNotFound
  end.

(** One finished call of [DoQuery] (history kept by the model). *)
Record attempt : Type := mkAttempt {
  a_start : Z;
  a_end : Z;
  a_resp : string;
  a_err : option error
}.

(** Program counter of a replica goroutine (lines 56 to 85). *)
Inductive wpc : Type :=
  | WHead (i : nat)               (* line 59: loop test, then line 61 *)
  | WCall (i : nat) (t0 : Z)      (* line 65: DoQuery running since t0 *)
  | WSend (i : nat) (r : Response) (* line 69: about to send on resCh *)
  | WBackoff (i : nat) (t0 : Z)   (* line 76: select, timer armed at t0 *)
  | WExit                         (* returning: deferred wg.Done() pending *)
  | WDone.                        (* goroutine finished *)

(** Program counter of the closing goroutine (lines 90 to 93). *)
Inductive jpc : Type :=
  | JWait    (* line 91: wg.Wait() *)
  | JClose   (* line 92: close(resCh) *)
  | JDone.

(** Program counter of the collecting loop (lines 96 to 125). *)
Inductive cpc : Type :=
  | CSelect                 (* line 97: select *)
  | CSuccess (r : Response) (* line 107: success received, cancel() next *)
  | CExit (res : result)    (* return statement reached, deferred cancel() pending *)
  | CReturned (res : result).

(** Lines printed by the collector (lines 107 and 116). *)
Inductive line : Type :=
  | SuccessFrom (host msg : string)
  | ResultFrom (host : string) (err : error).

(** ** Scheduler events *)

Inductive event : Type :=
  | EvTick (d : Z)             (* d nanoseconds pass *)
  | EvDeadline                 (* the timer of ctx fires *)
  | EvCheck (n : nat)          (* worker n: loop test and ctx.Err() check *)
  | EvReturn (n : nat) (resp : string) (err : option error)
                               (* worker n: DoQuery returns (resp, err) *)
  | EvSend (n : nat)           (* worker n: resCh <- Response{...} *)
  | EvTimer (n : nat)          (* worker n: select takes <-time.After(...) *)
  | EvCtxDone (n : nat)        (* worker n: select takes <-ctx.Done() *)
  | EvWgDone (n : nat)         (* worker n: deferred wg.Done() *)
  | EvWait                     (* closer: wg.Wait() returns *)
  | EvClose                    (* closer: close(resCh) *)
  | EvRecv                     (* collector: select takes <-resCh *)
  | EvTimeout                  (* collector: select takes <-ctx.Done() *)
  | EvCancel                   (* collector: line 108, cancel() *)
  | EvExit.                    (* collector: deferred cancel(), return *)

(** ** The mock host and the scenarios of [main] *)

Module Mock.

Record mockHost : Type := mkMock {
  name : string;
  flaky : bool;
  notFound : bool;
  slow : bool;
  flakyCounter : Z
}.

(** [DoQuery] of the mock.  For a slow host the select of line 143 either
    takes the one-second timer ([interrupted = None]) or ctx.Done(), and
    then returns [ctx.Err()]. *)
Definition DoQuery (h : mockHost) (interrupted : option error)
  : (string * option error) * mockHost :=
  match (if slow h then interrupted else None) with
  | Some e => (("", Some e), h)
  | None =>
      if notFound h then (("", Some ErrNotFound), h)
      else if flaky h then
        let h' := mkMock (name h) (flaky h) (notFound h) (slow h)
                    (flakyCounter h + 1) in
        if (flakyCounter h' <? 3)%Z
        then (("", Some (errors_New "temporary connection error")), h')
        else ((String.append "result from " (name h), None), h')
      else ((String.append "result from " (name h), None), h)
  end.

(** [k] calls in a row, none of them interrupted: the replies, oldest
    first, and the host afterwards. *)
Fixpoint calls (k : nat) (h : mockHost)
  : list (string * option error) * mockHost :=
  match k with
  | 0 => ([], h)
  | S k' =>
      let r := DoQuery h None in
      let rest := calls k' r.2 in
      (r.1 :: rest.1, rest.2)
  end.

(** [flakyCounter] is an [int].  In this range [k] increments do not
    overflow, whatever the width of [int]. *)
Definition in_range (k : nat) (h : mockHost) : Prop :=
  (- 2 ^ 31 ≤ flakyCounter h)%Z ∧ (flakyCounter h + Z.of_nat k < 2 ^ 31)%Z.

Definition host (n : string) : mockHost := mkMock n false false false 0.
Definition missing_host (n : string) : mockHost := mkMock n false true false 0.
Definition slow_host (n : string) : mockHost := mkMock n false false true 0.

Definition replicas3 : list mockHost :=
  [slow_host "Replica 1 (very slow)"; slow_host "Replica 2 (very slow)"].
Definition replicas4 : list mockHost :=
  [missing_host "Replica 1 (not found)"; host "Replica 2 (ok)"].

Definition query1 : string := "SELECT * FROM users".
Definition query4 : string := "SELECT * FROM users WHERE id=123".

Definition temporary : option error :=
  Some (errors_New "temporary connection error").
Definition ok2 : Response := mkResponse "result from Replica 2 (ok)" None "".
Definition missing1 : Response := mkResponse "" (Some ErrNotFound) "".

(** Scenario 4: both replicas answer, the not-found reply is sent first. *)
Definition answered4 : list event :=
  [EvCheck 0; EvCheck 1; EvReturn 0 "" (Some ErrNotFound); EvSend 0;
   EvReturn 1 "result from Replica 2 (ok)" None; EvSend 1].

(** Scenario 3: nothing returns before the deadline. *)
Definition timed_out3 : list event :=
  [EvCheck 0; EvCheck 1; EvTick (2 * Second); EvDeadline; EvTimeout; EvExit].

(** A replica that keeps failing: three failed calls, spaced by the timer. *)
Definition failed_thrice : list event :=
  [EvCheck 0; EvReturn 0 "" temporary; EvTick retryInterval; EvTimer 0;
   EvCheck 0; EvReturn 0 "" temporary; EvTick retryInterval; EvTimer 0;
   EvCheck 0; EvReturn 0 "" temporary].

(** Scenario 4 to its end: every goroutine finished, channel not yet closed. *)
Definition finished4 : list event :=
  answered4 ++ [EvWgDone 0; EvWgDone 1].

(** Scenario 3 after the deadline: a call returns the context's error. *)
Definition late3 : list event :=
  [EvCheck 0; EvCheck 1; EvTick (2 * Second); EvDeadline;
   EvReturn 0 "" (Some context_DeadlineExceeded)].

(** Scenario 2 (lines 183 to 186). *)
Definition flaky_host (n : string) : mockHost := mkMock n true false false 0.
Definition replicas2 : list mockHost :=
  [flaky_host "Replica 1 (flaky)"; flaky_host "Replica 2 (flaky)"].

(** Scenario 3 after the deadline: the first goroutine, waiting at line 76,
    leaves through ctx.Done(). *)
Definition gave_up3 : list event := late3 ++ [EvCtxDone 0].

(** The replica that keeps failing, to the end of the dispatch. *)
Definition failed_for_good : list event :=
  failed_thrice ++
  [EvTick retryInterval; EvTimer 0; EvCheck 0; EvWgDone 0;
   EvWait; EvClose; EvRecv; EvExit].

(** A replica that is down, identified by its name only. *)
Definition down : list string := ["replica that is down"].

End Mock.

(** * The program *)

Section Dispatcher.

(** [DatabaseHost] is an interface: the dispatcher only holds the handles it
    is given and calls [DoQuery] on them.  What a call returns, and when, is
    an input of the model (event [EvReturn]). *)
Context {DatabaseHost : Type}.

Record worker : Type := mkWorker {
  w_rep : DatabaseHost;
  w_pc : wpc;
  (* history, not read by the program *)
  w_attempts : list attempt;   (* finished DoQuery calls, newest first *)
  w_sent : list Response;      (* values sent on resCh *)
  w_seen : bool;               (* left through one of the two cancellation exits *)
  w_done : nat                 (* wg.Done() calls *)
}.

Record session : Type := mkSession {
  s_query : string;
  s_clock : Z;                 (* time since the call started *)
  s_deadline : Z;              (* deadline of ctx *)
  s_ctx : option error;        (* ctx.Err() *)
  s_cap : nat;                 (* cap(resCh) *)
  s_resCh : list Response;     (* buffered values, oldest first *)
  s_closed : bool;
  s_wg : Z;                    (* wait group counter *)
  s_workers : list worker;
  s_janitor : jpc;
  s_collector : cpc;
  s_panic : bool;              (* a goroutine panicked *)
  (* history, not read by the program *)
  s_received : list Response;  (* values taken from resCh, newest first *)
  s_stdout : list line
}.

(** Lines 42 to 93: context, channel, wait group, goroutines. *)
Definition DistributedQuery (query : string) (replicas : list DatabaseHost)
  : session :=
  {| s_query := query;
     s_clock := 0;
     s_deadline := totalTimeout;
     s_ctx := None;
     s_cap := length replicas;
     s_resCh := [];
     s_closed := false;
     s_wg := Z.of_nat (length replicas);
     s_workers := (λ rep, mkWorker rep (WHead 0) [] [] false 0) <$> replicas;
     s_janitor := JWait;
     s_collector := CSelect;
     s_panic := false;
     s_received := [];
     s_stdout := [] |}.

(** [cancel()]: the first cancellation cause wins. *)
Definition cancel (ctx : option error) : option error :=
  match ctx with
  | None => Some context_Canceled
  | Some e => Some e
  end.

(** ** Field updates *)

Definition w_goto (pc : wpc) (w : worker) : worker :=
  mkWorker (w_rep w) pc (w_attempts w) (w_sent w) (w_seen w) (w_done w).
Definition w_returned (a : attempt) (pc : wpc) (w : worker) : worker :=
  mkWorker (w_rep w) pc (a :: w_attempts w) (w_sent w) (w_seen w) (w_done w).
Definition w_cancelled (w : worker) : worker :=
  mkWorker (w_rep w) WExit (w_attempts w) (w_sent w) true (w_done w).
Definition w_sends (r : Response) (w : worker) : worker :=
  mkWorker (w_rep w) WExit (w_attempts w) (w_sent w ++ [r]) (w_seen w) (w_done w).
Definition w_finished (w : worker) : worker :=
  mkWorker (w_rep w) WDone (w_attempts w) (w_sent w) (w_seen w) (S (w_done w)).

Definition set_clock (t : Z) (s : session) : session :=
  mkSession (s_query s) t (s_deadline s) (s_ctx s) (s_cap s) (s_resCh s)
    (s_closed s) (s_wg s) (s_workers s) (s_janitor s) (s_collector s)
    (s_panic s) (s_received s) (s_stdout s).
Definition set_ctx (c : option error) (s : session) : session :=
  mkSession (s_query s) (s_clock s) (s_deadline s) c (s_cap s) (s_resCh s)
    (s_closed s) (s_wg s) (s_workers s) (s_janitor s) (s_collector s)
    (s_panic s) (s_received s) (s_stdout s).
Definition set_worker (n : nat) (w : worker) (s : session) : session :=
  mkSession (s_query s) (s_clock s) (s_deadline s) (s_ctx s) (s_cap s)
    (s_resCh s) (s_closed s) (s_wg s) (<[n:=w]> (s_workers s)) (s_janitor s)
    (s_collector s) (s_panic s) (s_received s) (s_stdout s).
Definition set_resCh (ch : list Response) (s : session) : session :=
  mkSession (s_query s) (s_clock s) (s_deadline s) (s_ctx s) (s_cap s) ch
    (s_closed s) (s_wg s) (s_workers s) (s_janitor s) (s_collector s)
    (s_panic s) (s_received s) (s_stdout s).
Definition set_closed (s : session) : session :=
  mkSession (s_query s) (s_clock s) (s_deadline s) (s_ctx s) (s_cap s)
    (s_resCh s) true (s_wg s) (s_workers s) (s_janitor s) (s_collector s)
    (s_panic s) (s_received s) (s_stdout s).
Definition set_wg (n : Z) (s : session) : session :=
  mkSession (s_query s) (s_clock s) (s_deadline s) (s_ctx s) (s_cap s)
    (s_resCh s) (s_closed s) n (s_workers s) (s_janitor s) (s_collector s)
    (s_panic s) (s_received s) (s_stdout s).
Definition set_janitor (j : jpc) (s : session) : session :=
  mkSession (s_query s) (s_clock s) (s_deadline s) (s_ctx s) (s_cap s)
    (s_resCh s) (s_closed s) (s_wg s) (s_workers s) j (s_collector s)
    (s_panic s) (s_received s) (s_stdout s).
Definition set_collector (c : cpc) (s : session) : session :=
  mkSession (s_query s) (s_clock s) (s_deadline s) (s_ctx s) (s_cap s)
    (s_resCh s) (s_closed s) (s_wg s) (s_workers s) (s_janitor s) c
    (s_panic s) (s_received s) (s_stdout s).
Definition set_panic (s : session) : session :=
  mkSession (s_query s) (s_clock s) (s_deadline s) (s_ctx s) (s_cap s)
    (s_resCh s) (s_closed s) (s_wg s) (s_workers s) (s_janitor s)
    (s_collector s) true (s_received s) (s_stdout s).
Definition took (r : Response) (s : session) : session :=
  mkSession (s_query s) (s_clock s) (s_deadline s) (s_ctx s) (s_cap s)
    (s_resCh s) (s_closed s) (s_wg s) (s_workers s) (s_janitor s)
    (s_collector s) (s_panic s) (r :: s_received s) (s_stdout s).
Definition printed (l : line) (s : session) : session :=
  mkSession (s_query s) (s_clock s) (s_deadline s) (s_ctx s) (s_cap s)
    (s_resCh s) (s_closed s) (s_wg s) (s_workers s) (s_janitor s)
    (s_collector s) (s_panic s) (s_received s) (s_stdout s ++ [l]).

(** ** The replica goroutine (lines 56 to 85) *)

(** One step of goroutine [n], whose record is [w].  The send of line 69
    blocks while the buffer is full and panics on a closed channel;
    [wg.Done()] panics on a negative counter. *)
Definition worker_step (e : event) (n : nat) (w : worker) (s : session)
  : option session :=
  match e, w_pc w with
  | EvCheck _, WHead i =>
      if decide (i < maxAttempts) then
        match s_ctx s with
        | Some _ => Some (set_worker n (w_cancelled w) s)
        | None => Some (set_worker n (w_goto (WCall i (s_clock s)) w) s)
        end
      else Some (set_worker n (w_goto WExit w) s)
  | EvReturn _ resp err, WCall i t0 =>
      let a := mkAttempt t0 (s_clock s) resp err in
      if terminal err
      then Some (set_worker n (w_returned a (WSend i (mkResponse resp err "")) w) s)
      else Some (set_worker n (w_returned a (WBackoff i (s_clock s)) w) s)
  | EvSend _, WSend i r =>
      if s_closed s then Some (set_panic s)
      else if decide (length (s_resCh s) < s_cap s)
      then Some (set_worker n (w_sends r w) (set_resCh (s_resCh s ++ [r]) s))
      else None
  | EvTimer _, WBackoff i t0 =>
      if decide (t0 + retryInterval ≤ s_clock s)%Z
      then Some (set_worker n (w_goto (WHead (S i)) w) s)
      else None
  | EvCtxDone _, WBackoff i t0 =>
      match s_ctx s with
      | Some _ => Some (set_worker n (w_cancelled w) s)
      | None => None
      end
  | EvWgDone _, WExit =>
      if decide (s_wg s - 1 < 0)%Z then Some (set_panic s)
      else Some (set_worker n (w_finished w) (set_wg (s_wg s - 1) s))
  | _, _ => None
  end.

(** ** The closing goroutine (lines 90 to 93) *)

Definition janitor_step (e : event) (s : session) : option session :=
  match e, s_janitor s with
  | EvWait, JWait =>
      if decide (s_wg s = 0%Z) then Some (set_janitor JClose s) else None
  | EvClose, JClose =>
      if s_closed s then Some (set_panic s)
      else Some (set_janitor JDone (set_closed s))
  | _, _ => None
  end.

(** ** The collecting loop (lines 96 to 125) *)

(** Lines 106 to 119, for a value [r] received from the channel.  An error
    that is not a not-found falls out of the select and the loop goes on. *)
Definition collect (r : Response) (s : session) : session :=
  match Err r with
  | None =>
      set_collector (CSuccess r) (printed (SuccessFrom (Host r) (Message r)) s)
  | Some e =>
      if errors_Is e ErrNotFound
      then set_collector CSelect (printed (ResultFrom (Host r) e) s)
      else set_collector CSelect s
  end.

Definition collector_step (e : event) (s : session) : option session :=
  match e, s_collector s with
  | EvRecv, CSelect =>
      match s_resCh s with
      | r :: rest => Some (collect r (took r (set_resCh rest s)))
      | [] =>
          if s_closed s
          then Some (set_collector (CExit ("", Some errAllFailed)) s)
          else None
      end
  | EvTimeout, CSelect =>
      match s_ctx s with
      | Some _ => Some (set_collector (CExit ("", Some errTimedOut)) s)
      | None => None
      end
  | EvCancel, CSuccess r =>
      Some (set_collector (CExit (Message r, None)) (set_ctx (cancel (s_ctx s)) s))
  | EvExit, CExit res =>
      Some (set_collector (CReturned res) (set_ctx (cancel (s_ctx s)) s))
  | _, _ => None
  end.

(** ** One step of the whole program *)

Definition on_worker (e : event) (n : nat) (s : session) : option session :=
  match s_workers s !! n with
  | Some w => worker_step e n w s
  | None => None
  end.

(** [None]: the event is not enabled (the goroutine is elsewhere, blocked,
    or the timer has not expired).  Nothing moves after a panic. *)
Definition step (e : event) (s : session) : option session :=
  if s_panic s then None else
  match e with
  | EvTick d =>
      if decide (0 ≤ d)%Z then Some (set_clock (s_clock s + d) s) else None
  | EvDeadline =>
      match s_ctx s with
      | None =>
          if decide (s_deadline s ≤ s_clock s)%Z
          then Some (set_ctx (Some context_DeadlineExceeded) s)
          else None
      | Some _ => None
      end
  | EvCheck n | EvReturn n _ _ | EvSend n | EvTimer n | EvCtxDone n
  | EvWgDone n => on_worker e n s
  | EvWait | EvClose => janitor_step e s
  | EvRecv | EvTimeout | EvCancel | EvExit => collector_step e s
  end.

Fixpoint run (sched : list event) (s : session) : option session :=
  match sched with
  | [] => Some s
  | e :: sched' =>
      match step e s with
      | Some s' => run sched' s'
      | None => None
      end
  end.

Definition reachable (query : string) (replicas : list DatabaseHost)
  (s : session) : Prop :=
  ∃ sched, run sched (DistributedQuery query replicas) = Some s.

(** The same transitions as a relation, one rule per branch of the program
    ([step_Step] and [Step_step] relate it to [step]). *)
Inductive Step : event → session → session → Prop :=
  | StepTick s d :
      (0 ≤ d)%Z → Step (EvTick d) s (set_clock (s_clock s + d) s)
  | StepDeadline s :
      s_ctx s = None → (s_deadline s ≤ s_clock s)%Z →
      Step EvDeadline s (set_ctx (Some context_DeadlineExceeded) s)
  | StepExhausted s n w i :
      s_workers s !! n = Some w → w_pc w = WHead i → ¬ i < maxAttempts →
      Step (EvCheck n) s (set_worker n (w_goto WExit w) s)
  | StepCheckCancelled s n w i e :
      s_workers s !! n = Some w → w_pc w = WHead i → i < maxAttempts →
      s_ctx s = Some e →
      Step (EvCheck n) s (set_worker n (w_cancelled w) s)
  | StepCall s n w i :
      s_workers s !! n = Some w → w_pc w = WHead i → i < maxAttempts →
      s_ctx s = None →
      Step (EvCheck n) s (set_worker n (w_goto (WCall i (s_clock s)) w) s)
  | StepReturnTerminal s n w i t0 resp err :
      s_workers s !! n = Some w → w_pc w = WCall i t0 → terminal err = true →
      Step (EvReturn n resp err) s
        (set_worker n
           (w_returned (mkAttempt t0 (s_clock s) resp err)
              (WSend i (mkResponse resp err "")) w) s)
  | StepReturnRetry s n w i t0 resp err :
      s_workers s !! n = Some w → w_pc w = WCall i t0 → terminal err = false →
      Step (EvReturn n resp err) s
        (set_worker n
           (w_returned (mkAttempt t0 (s_clock s) resp err)
              (WBackoff i (s_clock s)) w) s)
  | StepSendClosed s n w i r :
      s_workers s !! n = Some w → w_pc w = WSend i r → s_closed s = true →
      Step (EvSend n) s (set_panic s)
  | StepSend s n w i r :
      s_workers s !! n = Some w → w_pc w = WSend i r → s_closed s = false →
      length (s_resCh s) < s_cap s →
      Step (EvSend n) s
        (set_worker n (w_sends r w) (set_resCh (s_resCh s ++ [r]) s))
  | StepTimer s n w i t0 :
      s_workers s !! n = Some w → w_pc w = WBackoff i t0 →
      (t0 + retryInterval ≤ s_clock s)%Z →
      Step (EvTimer n) s (set_worker n (w_goto (WHead (S i)) w) s)
  | StepCtxDone s n w i t0 e :
      s_workers s !! n = Some w → w_pc w = WBackoff i t0 → s_ctx s = Some e →
      Step (EvCtxDone n) s (set_worker n (w_cancelled w) s)
  | StepWgNegative s n w :
      s_workers s !! n = Some w → w_pc w = WExit → (s_wg s - 1 < 0)%Z →
      Step (EvWgDone n) s (set_panic s)
  | StepWgDone s n w :
      s_workers s !! n = Some w → w_pc w = WExit → ¬ (s_wg s - 1 < 0)%Z →
      Step (EvWgDone n) s
        (set_worker n (w_finished w) (set_wg (s_wg s - 1) s))
  | StepWait s :
      s_janitor s = JWait → s_wg s = 0%Z →
      Step EvWait s (set_janitor JClose s)
  | StepCloseClosed s :
      s_janitor s = JClose → s_closed s = true →
      Step EvClose s (set_panic s)
  | StepClose s :
      s_janitor s = JClose → s_closed s = false →
      Step EvClose s (set_janitor JDone (set_closed s))
  | StepRecv s r rest :
      s_collector s = CSelect → s_resCh s = r :: rest →
      Step EvRecv s (collect r (took r (set_resCh rest s)))
  | StepRecvClosed s :
      s_collector s = CSelect → s_resCh s = [] → s_closed s = true →
      Step EvRecv s (set_collector (CExit ("", Some errAllFailed)) s)
  | StepTimeout s e :
      s_collector s = CSelect → s_ctx s = Some e →
      Step EvTimeout s (set_collector (CExit ("", Some errTimedOut)) s)
  | StepCancel s r :
      s_collector s = CSuccess r →
      Step EvCancel s
        (set_collector (CExit (Message r, None)) (set_ctx (cancel (s_ctx s)) s))
  | StepExit s res :
      s_collector s = CExit res →
      Step EvExit s
        (set_collector (CReturned res) (set_ctx (cancel (s_ctx s)) s)).

(** ** What holds of a replica goroutine *)

Definition retryable (a : attempt) : Prop := terminal (a_err a) = false.

(** Line 69: the value sent for a finished call. *)
Definition reply (a : attempt) : Response :=
  mkResponse (a_resp a) (a_err a) "".

(** Consecutive calls are at least [retryInterval] apart. *)
Fixpoint spaced (l : list attempt) : Prop :=
  match l with
  | [] => True
  | b :: l' =>
      match l' with
      | a :: _ => (a_end a + retryInterval ≤ a_start b)%Z
      | [] => True
      end ∧ spaced l'
  end.

(** At time [t] the wait after the newest call is over. *)
Definition rested (t : Z) (l : list attempt) : Prop :=
  match l with
  | a :: _ => (a_end a + retryInterval ≤ t)%Z
  | [] => True
  end.

(** Inside the loop: nothing sent, no cancellation seen, no [wg.Done()]. *)
Definition quiet (w : worker) : Prop :=
  w_sent w = [] ∧ w_seen w = false ∧ w_done w = 0.

Definition last_terminal (w : worker) (r : Response) : Prop :=
  ∃ a older, w_attempts w = a :: older ∧ terminal (a_err a) = true ∧ r = reply a.

(** After the loop: either nothing was sent and every call failed with a
    retryable error, or the reply of the newest call was sent, and only that. *)
Definition left_ok (w : worker) : Prop :=
  (w_sent w = [] ∧ Forall retryable (w_attempts w)) ∨
  (w_seen w = false ∧ ∃ r, last_terminal w r ∧ w_sent w = [r]).

Definition worker_ok (now : Z) (w : worker) : Prop :=
  length (w_attempts w) ≤ maxAttempts ∧
  Forall retryable (tail (w_attempts w)) ∧
  spaced (w_attempts w) ∧
  Forall (λ a, (a_start a ≤ a_end a ≤ now)%Z) (w_attempts w) ∧
  match w_pc w with
  | WHead i =>
      length (w_attempts w) = i ∧ Forall retryable (w_attempts w) ∧
      rested now (w_attempts w) ∧ quiet w
  | WCall i t0 =>
      i < maxAttempts ∧ length (w_attempts w) = i ∧
      Forall retryable (w_attempts w) ∧ rested t0 (w_attempts w) ∧
      (t0 ≤ now)%Z ∧ quiet w
  | WSend i r =>
      length (w_attempts w) = S i ∧ last_terminal w r ∧ quiet w
  | WBackoff i t0 =>
      length (w_attempts w) = S i ∧ Forall retryable (w_attempts w) ∧
      (∃ a older, w_attempts w = a :: older ∧ a_end a = t0) ∧ quiet w
  | WExit => left_ok w ∧ w_done w = 0
  | WDone => left_ok w ∧ w_done w = 1
  end.

Definition workers_ok (s : session) : Prop :=
  Forall (worker_ok (s_clock s)) (s_workers s).

(** ** What holds of wait group, channel and closing goroutine *)

(** A goroutine that has not yet called [wg.Done()]. *)
Definition pending (w : worker) : nat :=
  match w_pc w with
  | WDone => 0
  | _ => 1
  end.

Definition nsent (w : worker) : nat := length (w_sent w).

Definition sync_ok (s : session) : Prop :=
  s_panic s = false ∧
  s_wg s = Z.of_nat (sum_list_with pending (s_workers s)) ∧
  s_cap s = length (s_workers s) ∧
  length (s_resCh s) + length (s_received s)
    = sum_list_with nsent (s_workers s) ∧
  match s_janitor s with
  | JWait => s_closed s = false
  | JClose => s_closed s = false ∧ s_wg s = 0%Z
  | JDone => s_closed s = true ∧ s_wg s = 0%Z
  end.

(** ** What holds of context and collector *)

Definition failed (r : Response) : Prop := Err r ≠ None.

Definition exiting (c : cpc) : Prop :=
  match c with
  | CExit _ | CReturned _ => True
  | _ => False
  end.

Definition ctx_ok (s : session) : Prop :=
  s_deadline s = totalTimeout ∧ (0 ≤ s_clock s)%Z ∧
  match s_ctx s with
  | None => True
  | Some e =>
      (e = context_DeadlineExceeded ∧ (totalTimeout ≤ s_clock s)%Z) ∨
      (e = context_Canceled ∧ exiting (s_collector s))
  end.

(** [r] is the newest value taken from the channel, it carries no error, and
    every value taken before it carried one. *)
Definition won (s : session) (r : Response) : Prop :=
  Err r = None ∧ ∃ earlier, s_received s = r :: earlier ∧ Forall failed earlier.

Definition decided (s : session) (res : result) : Prop :=
  (∃ r, res = (Message r, None) ∧ won s r ∧ s_ctx s ≠ None) ∨
  (res = ("", Some errAllFailed) ∧ s_closed s = true ∧ s_resCh s = [] ∧
   Forall failed (s_received s)) ∨
  (res = ("", Some errTimedOut) ∧ s_ctx s = Some context_DeadlineExceeded ∧
   Forall failed (s_received s)).

Definition collector_ok (s : session) : Prop :=
  match s_collector s with
  | CSelect => Forall failed (s_received s)
  | CSuccess r => won s r
  | CExit res => decided s res
  | CReturned res => decided s res ∧ s_ctx s ≠ None
  end.

(** Every value in the channel or taken from it was sent by a goroutine. *)
Definition origin_ok (s : session) : Prop :=
  ∀ r, r ∈ s_resCh s ++ s_received s →
       ∃ n w, s_workers s !! n = Some w ∧ r ∈ w_sent w.

(** The invariant of a dispatch session. *)
Definition session_ok (s : session) : Prop :=
  workers_ok s ∧ sync_ok s ∧ ctx_ok s ∧ collector_ok s ∧ origin_ok s.

(** ** Schedules and observations used in the results *)

(** What the collector still has to do to return, letting the deadline pass
    if it is still waiting.  No replica has to cooperate. *)
Definition finish (s : session) : list event :=
  match s_collector s with
  | CReturned _ => []
  | CExit _ => [EvExit]
  | CSuccess _ => [EvCancel; EvExit]
  | CSelect =>
      match s_ctx s with
      | Some _ => [EvTimeout; EvExit]
      | None =>
          [EvTick (Z.max 0 (s_deadline s - s_clock s)); EvDeadline;
           EvTimeout; EvExit]
      end
  end.

(** What the call has returned to its caller, if it has. *)
Definition returned (s : session) : option result :=
  match s_collector s with
  | CReturned res => Some res
  | _ => None
  end.

(** The goroutine has left its loop. *)
Definition gone (w : worker) : Prop := w_pc w = WExit ∨ w_pc w = WDone.

(** Calls of [DoQuery] started so far. *)
Definition started (w : worker) : nat :=
  length (w_attempts w) +
  match w_pc w with
  | WCall _ _ => 1
  | _ => 0
  end.

(** The schedule on which a goroutine that is backing off, is at the loop
    head or is returning gets to its end when the timer is left to fire. *)
Definition wind_down (n : nat) (w : worker) (s : session) : list event :=
  match w_pc w with
  | WBackoff _ t0 =>
      [EvTick (Z.max 0 (t0 + retryInterval - s_clock s)); EvTimer n;
       EvCheck n; EvWgDone n]
  | WHead _ => [EvCheck n; EvWgDone n]
  | WExit => [EvWgDone n]
  | _ => []
  end.

Definition same_history (w w' : worker) : Prop :=
  w_sent w' = w_sent w ∧ w_attempts w' = w_attempts w ∧ w_seen w' = w_seen w.

(** [maxAttempts] calls, all failed with errors other than not-found. *)
Definition exhausted (w : worker) : Prop :=
  length (w_attempts w) = maxAttempts ∧ Forall retryable (w_attempts w).

(** What the closing goroutine still has to do. *)
Definition close_up (s : session) : list event :=
  match s_janitor s with
  | JWait => [EvWait; EvClose]
  | JClose => [EvClose]
  | JDone => []
  end.

(** The receives of the collector until a success or the end of the closed
    channel. *)
Fixpoint drain (ch : list Response) : list event :=
  match ch with
  | [] => [EvRecv]
  | r :: rest =>
      EvRecv :: match Err r with
                | None => []
                | Some _ => drain rest
                end
  end.

(** The events that need nothing from outside: every step of a goroutine
    except the return of a replica call, and the firing of a timer that has
    expired. *)
Definition internal (s : session) : list event :=
  [EvDeadline; EvWait; EvClose; EvRecv; EvTimeout; EvCancel; EvExit] ++
  flat_map (λ n, [EvCheck n; EvSend n; EvTimer n; EvCtxDone n; EvWgDone n])
    (seq 0 (length (s_workers s))).

Definition enabled (e : event) (s : session) : bool :=
  match step e s with
  | Some _ => true
  | None => false
  end.

Definition busy (s : session) : bool := existsb (λ e, enabled e s) (internal s).

(** A schedule is eager when time only passes while no goroutine can move
    and no expired timer is pending, and never beyond the deadline of a
    context whose timer has not fired. *)
Fixpoint eager (sched : list event) (s : session) : Prop :=
  match sched with
  | [] => True
  | e :: sched' =>
      match e with
      | EvTick d =>
          busy s = false ∧
          (s_ctx s = None → (s_clock s + d ≤ s_deadline s)%Z)
      | _ => True
      end ∧
      match step e s with
      | Some s' => eager sched' s'
      | None => True
      end
  end.

(** Until the call returns the clock stands at zero, and what it returns is
    the all-replicas-failed error. *)
Definition at_once (s : session) : Prop :=
  (returned s = None → s_clock s = 0%Z) ∧
  (∀ res, s_collector s = CReturned res → res = ("", Some errAllFailed)).

(** The entry point as spec.md words it,
    [dispatch(query, replicas, timeout)]: the deadline of the session is the
    duration the caller passes. *)
Definition dispatch_spec (query : string) (replicas : list DatabaseHost)
  (timeout : Z) : session :=
  {| s_query := query;
     s_clock := 0;
     s_deadline := timeout;
     s_ctx := None;
     s_cap := length replicas;
     s_resCh := [];
     s_closed := false;
     s_wg := Z.of_nat (length replicas);
     s_workers := (λ rep, mkWorker rep (WHead 0) [] [] false 0) <$> replicas;
     s_janitor := JWait;
     s_collector := CSelect;
     s_panic := false;
     s_received := [];
     s_stdout := [] |}.

(** ** Output, timing and retirement (used in the further results) *)

(** The line the collector prints for a value it takes (lines 107 and 116);
    nothing is printed for an error that is not a not-found. *)
Definition line_of (r : Response) : option line :=
  match Err r with
  | None => Some (SuccessFrom (Host r) (Message r))
  | Some e =>
      if errors_Is e ErrNotFound then Some (ResultFrom (Host r) e) else None
  end.

Definition line_host (l : line) : string :=
  match l with
  | SuccessFrom h _ | ResultFrom h _ => h
  end.

(** What was printed is the lines of the values taken, oldest first. *)
Definition output_ok (s : session) : Prop :=
  s_stdout s = omap line_of (reverse (s_received s)).

(** Call times are not negative; a goroutine has seen the cancellation only
    after the deadline or after a success was taken; a goroutine that left
    its loop with nothing sent and no cancellation seen has made all its
    calls and waited after the last one. *)
Definition worker_timing (s : session) (w : worker) : Prop :=
  Forall (λ a, (0 ≤ a_start a)%Z) (w_attempts w) ∧
  (∀ i t0, w_pc w = WCall i t0 → (0 ≤ t0)%Z) ∧
  (w_seen w = true → (totalTimeout ≤ s_clock s)%Z ∨ ∃ r, won s r) ∧
  (gone w → w_sent w = [] → w_seen w = false →
   length (w_attempts w) = maxAttempts ∧ rested (s_clock s) (w_attempts w)).

Definition timing_ok (s : session) : Prop :=
  Forall (worker_timing s) (s_workers s).

(** Nothing sent is lost: it is in the buffer or the collector took it. *)
Definition kept_ok (s : session) : Prop :=
  ∀ n w r, s_workers s !! n = Some w → r ∈ w_sent w →
           r ∈ s_resCh s ++ s_received s.

(** What takes goroutine [n] to its end once the context is cancelled, a
    call in flight returning [ans]. *)
Definition retire (n : nat) (w : worker) (ans : string * option error)
  : list event :=
  match w_pc w with
  | WHead _ => [EvCheck n; EvWgDone n]
  | WCall _ _ =>
      if terminal ans.2
      then [EvReturn n ans.1 ans.2; EvSend n; EvWgDone n]
      else [EvReturn n ans.1 ans.2; EvCtxDone n; EvWgDone n]
  | WSend _ _ => [EvSend n; EvWgDone n]
  | WBackoff _ _ => [EvCtxDone n; EvWgDone n]
  | WExit => [EvWgDone n]
  | WDone => []
  end.

(** The goroutines one after the other, from number [n] on. *)
Fixpoint retire_from (n : nat) (ws : list worker)
  (answers : nat → string * option error) : list event :=
  match ws with
  | [] => []
  | w :: ws' => retire n w (answers n) ++ retire_from (S n) ws' answers
  end.

(** The collector returns, every goroutine ends, the channel is closed. *)
Definition wrap_up (answers : nat → string * option error) (s : session)
  : list event :=
  finish s ++ retire_from 0 (s_workers s) answers ++ close_up s.

(** Only goroutine [n] has moved between [s] and [s']. *)
Definition aside (n : nat) (s s' : session) : Prop :=
  s_ctx s' = s_ctx s ∧ s_collector s' = s_collector s ∧
  s_clock s' = s_clock s ∧ s_janitor s' = s_janitor s ∧
  ∃ w', s_workers s' = <[n:=w']> (s_workers s).

Definition done_at (n : nat) (s : session) : Prop :=
  ∀ w, s_workers s !! n = Some w → w_pc w = WDone.

(** Events of the collector, of the clock and of the context's timer. *)
Definition outside (e : event) : Prop :=
  match e with
  | EvTick _ | EvDeadline | EvRecv | EvTimeout | EvCancel | EvExit => True
  | _ => False
  end.

Definition timeless (e : event) : Prop :=
  match e with
  | EvTick _ => False
  | _ => True
  end.

(** ** The dispatcher over the mock hosts (lines 131 to 164) *)

(** The replica of goroutine [n] is a pointer to the mock host
    [hosts !! n], which only that goroutine calls.  A call of the mock's
    [DoQuery] is one event.  A host that is not slow returns at any time.  A
    slow one returns through the timer of line 144, once a second has passed
    since the call began, or through ctx.Done() (line 146) once the context
    is cancelled, and then with [ctx.Err()]. *)
Inductive mock_event : Type :=
  | MockReturn (n : nat) (interrupted : bool)
  | Program (e : event).

Definition mock_state : Type := session * list Mock.mockHost.

Definition mock_ready (h : Mock.mockHost) (interrupted : bool) (t0 : Z)
  (s : session) : bool :=
  if Mock.slow h then
    if interrupted then bool_decide (s_ctx s ≠ None)
    else bool_decide (t0 + Second ≤ s_clock s)%Z
  else negb interrupted.

Definition mock_return (n : nat) (interrupted : bool) (st : mock_state)
  : option mock_state :=
  match s_workers st.1 !! n, st.2 !! n with
  | Some w, Some h =>
      match w_pc w with
      | WCall i t0 =>
          if mock_ready h interrupted t0 st.1 then
            let ans :=
              Mock.DoQuery h (if interrupted then s_ctx st.1 else None) in
            match step (EvReturn n ans.1.1 ans.1.2) st.1 with
            | Some s' => Some (s', <[n:=ans.2]> st.2)
            | None => None
            end
          else None
      | _ => None
      end
  | _, _ => None
  end.

(** The replies come from the mock hosts only. *)
Definition mock_step (me : mock_event) (st : mock_state) : option mock_state :=
  match me with
  | MockReturn n interrupted => mock_return n interrupted st
  | Program (EvReturn _ _ _) => None
  | Program e =>
      match step e st.1 with
      | Some s' => Some (s', st.2)
      | None => None
      end
  end.

Fixpoint mock_run (sched : list mock_event) (st : mock_state)
  : option mock_state :=
  match sched with
  | [] => Some st
  | me :: sched' =>
      match mock_step me st with
      | Some st' => mock_run sched' st'
      | None => None
      end
  end.

Definition mock_reachable (query : string) (replicas : list DatabaseHost)
  (hosts : list Mock.mockHost) (st : mock_state) : Prop :=
  ∃ sched, mock_run sched (DistributedQuery query replicas, hosts) = Some st.

(** The call ended through ctx.Done() (line 147). *)
Definition from_ctx (a : attempt) : bool :=
  match a_err a with
  | Some context_Canceled | Some context_DeadlineExceeded => true
  | _ => false
  end.

(** The host after the calls [l] (newest first). *)
Fixpoint host_after (h0 : Mock.mockHost) (l : list attempt) : Mock.mockHost :=
  match l with
  | [] => h0
  | a :: older =>
      if from_ctx a then host_after h0 older
      else (Mock.DoQuery (host_after h0 older) None).2
  end.

(** Each finished call returned what the host returns in the state the
    calls before it left; a slow host took a second unless interrupted. *)
Fixpoint replies_ok (h0 : Mock.mockHost) (l : list attempt) : Prop :=
  match l with
  | [] => True
  | a :: older =>
      (if from_ctx a
       then Mock.slow h0 = true ∧ a_resp a = ""
       else (a_resp a, a_err a)
            = (Mock.DoQuery (host_after h0 older) None).1 ∧
            (Mock.slow h0 = true → (a_start a + Second ≤ a_end a)%Z)) ∧
      replies_ok h0 older
  end.

(** A call was interrupted only after the deadline or after a success. *)
Definition interrupted_late (s : session) (a : attempt) : Prop :=
  from_ctx a = true → (totalTimeout ≤ s_clock s)%Z ∨ ∃ r, won s r.

Definition mock_ok (hosts : list Mock.mockHost) (st : mock_state) : Prop :=
  length st.2 = length hosts ∧
  ∀ n w,
    s_workers st.1 !! n = Some w →
    match hosts !! n with
    | Some h0 =>
        st.2 !! n = Some (host_after h0 (w_attempts w)) ∧
        replies_ok h0 (w_attempts w) ∧
        Forall (interrupted_late st.1) (w_attempts w)
    | None => w_attempts w = []
    end.


(** Scenario 2: the first host has failed once. *)
Definition failed_once2 : list mock_event :=
  [Program (EvCheck 0); MockReturn 0 false].



(** * Lemmas *)

(** ** The function and the relation agree *)

Lemma step_Step e s s' : step e s = Some s' → s_panic s = false ∧ Step e s s'.
Proof.
  unfold step. destruct (s_panic s) eqn:Hp; [done|]. intros H. split; [done|].
  destruct e; simpl in H;
    unfold on_worker, worker_step, janitor_step, collector_step in H;
    repeat case_match; simplify_eq; try (econstructor; eauto; fail).
Qed.

Lemma Step_step e s s' : s_panic s = false → Step e s s' → step e s = Some s'.
Proof.
  intros Hp H. unfold step. rewrite Hp.
  destruct H; simpl;
    unfold on_worker, worker_step, janitor_step, collector_step;
    repeat match goal with H : _ = _ |- _ => rewrite H end; simpl;
    repeat case_decide; try done; try lia.
Qed.

(** ** The invariant is kept *)

Lemma worker_ok_later t t' w : (t ≤ t')%Z → worker_ok t w → worker_ok t' w.
Proof.
  intros Ht (Hlen & Hold & Hsp & Htimes & Hpc).
  split; [done|]. split; [done|]. split; [done|]. split.
  - eapply Forall_impl; [exact Htimes|]. simpl. intros a ?. lia.
  - destruct (w_pc w); try done.
    + destruct Hpc as (? & ? & Hr & ?). split; [done|]. split; [done|].
      split; [|done]. unfold rested in *. destruct (w_attempts w); [done|lia].
    + destruct Hpc as (? & ? & ? & ? & ? & ?). repeat (split; [done|]).
      split; [lia|done].
Qed.

Lemma workers_ok_init query replicas :
  workers_ok (DistributedQuery query replicas).
Proof.
  unfold workers_ok. simpl. apply Forall_fmap, Forall_forall. intros rep _.
  unfold worker_ok, quiet; simpl. repeat split; auto; try lia.
Qed.

Lemma collect_clock r s : s_clock (collect r s) = s_clock s.
Proof. unfold collect. repeat case_match; done. Qed.
Lemma collect_deadline r s : s_deadline (collect r s) = s_deadline s.
Proof. unfold collect. repeat case_match; done. Qed.
Lemma collect_ctx r s : s_ctx (collect r s) = s_ctx s.
Proof. unfold collect. repeat case_match; done. Qed.
Lemma collect_cap r s : s_cap (collect r s) = s_cap s.
Proof. unfold collect. repeat case_match; done. Qed.
Lemma collect_resCh r s : s_resCh (collect r s) = s_resCh s.
Proof. unfold collect. repeat case_match; done. Qed.
Lemma collect_closed r s : s_closed (collect r s) = s_closed s.
Proof. unfold collect. repeat case_match; done. Qed.
Lemma collect_wg r s : s_wg (collect r s) = s_wg s.
Proof. unfold collect. repeat case_match; done. Qed.
Lemma collect_workers r s : s_workers (collect r s) = s_workers s.
Proof. unfold collect. repeat case_match; done. Qed.
Lemma collect_janitor r s : s_janitor (collect r s) = s_janitor s.
Proof. unfold collect. repeat case_match; done. Qed.
Lemma collect_panic r s : s_panic (collect r s) = s_panic s.
Proof. unfold collect. repeat case_match; done. Qed.
Lemma collect_received r s : s_received (collect r s) = s_received s.
Proof. unfold collect. repeat case_match; done. Qed.
Lemma collect_collector r s :
  s_collector (collect r s) =
  match Err r with None => CSuccess r | Some _ => CSelect end.
Proof. unfold collect. repeat case_match; done. Qed.

Ltac collect_simpl :=
  simpl;
  rewrite ?collect_clock, ?collect_deadline, ?collect_ctx, ?collect_cap,
    ?collect_resCh, ?collect_closed, ?collect_wg, ?collect_workers,
    ?collect_janitor, ?collect_panic, ?collect_received, ?collect_collector;
  simpl.

Lemma workers_ok_step e s s' : Step e s s' → workers_ok s → workers_ok s'.
Proof.
  unfold workers_ok.
  destruct 1; simpl; intros Hall; try done;
    try (match goal with
         | H : s_workers _ !! _ = Some _ |- _ =>
             apply Forall_insert; [done|];
             pose proof (Forall_lookup_1 _ _ _ _ Hall H) as Hw
         end;
         destruct Hw as (Hlen & Hold & Hsp & Htimes & Hpc);
         match goal with H : w_pc _ = _ |- _ => rewrite H in Hpc end;
         unfold worker_ok, quiet, left_ok, last_terminal in *; simpl).
  - eapply Forall_impl; [exact Hall|]. intros w. apply worker_ok_later. lia.
  - intuition auto.
  - intuition auto.
  - destruct Hpc as (? & ? & ? & ? & ? & ?). repeat split; auto. lia.
  - destruct Hpc as (? & ? & ? & Hr & ? & ? & ? & ?).
    repeat split; auto; try lia;
      first [ constructor; [simpl; lia|done] | eexists _, _; repeat split; done ].
  - destruct Hpc as (? & ? & ? & Hr & ? & ? & ? & ?).
    repeat split; auto; try lia;
      first [ constructor; [simpl; lia|done] | constructor; done
            | eexists _, _; done ].
  - destruct Hpc as (? & (a & older & Ha & ? & ?) & Hs & ? & ?).
    repeat split; auto. right. split; [done|]. exists r. split.
    + exists a, older. done.
    + rewrite Hs. done.
  - destruct Hpc as (? & ? & (a & older & Ha & ?) & ? & ? & ?).
    repeat split; auto; try lia.
    rewrite Ha. simpl. subst. done.
  - intuition auto.
  - destruct Hpc as (? & Hd). rewrite Hd. repeat split; auto.
  - collect_simpl. done.
Qed.

Lemma sum_list_with_insert {A} (f : A → nat) (l : list A) n x y :
  l !! n = Some x →
  sum_list_with f (<[n:=y]> l) + f x = sum_list_with f l + f y.
Proof.
  revert n. induction l as [|a l IH]; intros [|n] Hn; simplify_eq/=; [lia|].
  specialize (IH _ Hn). lia.
Qed.

Lemma sum_list_with_lookup {A} (f : A → nat) (l : list A) n x :
  l !! n = Some x → f x ≤ sum_list_with f l.
Proof. intros H. apply sum_list_with_in. eapply list_elem_of_lookup_2, H. Qed.

Lemma sum_list_with_bound {A} (f : A → nat) (l : list A) n x :
  Forall (λ a, f a ≤ 1) l → l !! n = Some x → f x = 0 →
  sum_list_with f l < length l.
Proof.
  intros Hall. revert n. induction Hall as [|a l Ha Hall IH]; intros [|n] Hn H0;
    simplify_eq/=.
  - assert (sum_list_with f l ≤ length l); [|lia].
    clear -Hall. induction Hall; simpl; lia.
  - specialize (IH _ Hn H0). lia.
Qed.

Lemma sync_ok_init query replicas : sync_ok (DistributedQuery query replicas).
Proof.
  unfold sync_ok; simpl. rewrite length_fmap. repeat split; auto.
  - f_equal. induction replicas; simpl; auto.
  - induction replicas; simpl; auto.
Qed.

Ltac sums H :=
  let Hp := fresh "Hp" in let Hs := fresh "Hs" in
  let Hp' := fresh "Hp'" in let Hs' := fresh "Hs'" in
  pose proof (sum_list_with_lookup pending _ _ _ H) as Hp;
  pose proof (sum_list_with_lookup nsent _ _ _ H) as Hs;
  match goal with
  | |- context [<[?n:=?y]> ?l] =>
      pose proof (sum_list_with_insert pending l n _ y H) as Hp';
      pose proof (sum_list_with_insert nsent l n _ y H) as Hs'
  | _ => idtac
  end;
  unfold pending, nsent in *; simpl in *.

Lemma sync_ok_step e s s' : Step e s s' → sync_ok s → sync_ok s'.
Proof.
  unfold sync_ok.
  destruct 1; simpl; intros (Hpanic & Hwg & Hcap & Hch & Hj); try done;
    try (match goal with H : s_workers _ !! _ = Some _ |- _ => sums H end;
         match goal with H : w_pc _ = _ |- _ => rewrite H in * end;
         rewrite ?length_insert, ?length_app in *; simpl in *);
    try match goal with H : s_janitor _ = _ |- _ => rewrite H in Hj end.
  all: try (repeat split; auto; try lia; destruct (s_janitor s);
            intuition (try congruence; lia)).
  all: try (exfalso; destruct (s_janitor s); intuition (try congruence; lia)).
  - collect_simpl. rewrite H0 in Hch. simpl in *.
    repeat split; try done. lia.
Qed.

Lemma ctx_ok_init query replicas : ctx_ok (DistributedQuery query replicas).
Proof. unfold ctx_ok; simpl. done. Qed.

Lemma ctx_ok_step e s s' : Step e s s' → ctx_ok s → ctx_ok s'.
Proof.
  unfold ctx_ok.
  destruct 1; collect_simpl; intros (Hd & Hc & Hctx); try done;
    (split; [done|]; split; [lia|]);
    try match goal with H : s_collector _ = _ |- _ => rewrite H in Hctx end;
    unfold cancel, exiting in *; simpl in *;
    repeat case_match; simplify_eq;
    intuition (auto; try lia; try congruence).
Qed.

Lemma collector_ok_init query replicas :
  collector_ok (DistributedQuery query replicas).
Proof. unfold collector_ok; simpl. constructor. Qed.

Lemma cancel_Some c : cancel c ≠ None.
Proof. destruct c; done. Qed.

Lemma cancel_keeps c e : c = Some e → cancel c = Some e.
Proof. intros ->. done. Qed.

Lemma collector_ok_step e s s' :
  Step e s s' → ctx_ok s → collector_ok s → collector_ok s'.
Proof.
  unfold collector_ok, ctx_ok, decided, won.
  destruct 1; collect_simpl; intros (_ & _ & Hctx) Hc; try done;
    try match goal with H : s_collector _ = _ |- _ =>
          rewrite H in Hc; rewrite ?H in Hctx end;
    try (destruct (s_collector s); simpl;
         intuition (auto; try congruence); fail).
  - (* deadline *)
    rewrite H in Hc.
    destruct (s_collector s); simpl; try done.
    + destruct Hc as [(r & ? & ? & ?)|[?|(? & ? & ?)]]; [done|auto|done].
    + destruct Hc as [_ ?]. done.
  - (* receive *)
    destruct (Err r) eqn:Hr; simpl.
    + constructor; [|done]. unfold failed. congruence.
    + split; [done|]. eauto.
  - (* timeout *)
    right. right. split; [done|]. split; [|done].
    rewrite H0 in Hctx. destruct Hctx as [[-> _]|[_ []]]. done.
  - (* cancel *)
    left. exists r. split; [done|]. split; [done|]. apply cancel_Some.
  - (* return *)
    split; [|apply cancel_Some].
    destruct Hc as [(r & ? & ? & ?)|[?|(? & Hx & ?)]]; simpl.
    + left. exists r. split; [done|]. split; [done|]. apply cancel_Some.
    + right. left. done.
    + right. right. split; [done|]. split; [|done]. apply cancel_keeps, Hx.
Qed.

Lemma origin_ok_init query replicas :
  origin_ok (DistributedQuery query replicas).
Proof. intros r Hr. simpl in Hr. by apply elem_of_nil in Hr. Qed.

Lemma origin_insert (l : list worker) n w w' r :
  l !! n = Some w → (∀ x, x ∈ w_sent w → x ∈ w_sent w') →
  (∃ m v, l !! m = Some v ∧ r ∈ w_sent v) →
  ∃ m v, <[n:=w']> l !! m = Some v ∧ r ∈ w_sent v.
Proof.
  intros Hn Hsub (m & v & Hm & Hr). destruct (decide (m = n)) as [->|Hne].
  - exists n, w'. split.
    + apply list_lookup_insert_eq. eapply lookup_lt_Some, Hn.
    + apply Hsub. congruence.
  - exists m, v. split; [|done]. rewrite list_lookup_insert_ne; done.
Qed.

Lemma origin_ok_step e s s' : Step e s s' → origin_ok s → origin_ok s'.
Proof.
  unfold origin_ok.
  destruct 1; collect_simpl; intros Ho x Hx; try (by apply Ho);
    try (eapply origin_insert; [done| |by apply Ho]; simpl; by auto).
  - (* send *)
    assert (∀ y, y ∈ w_sent w → y ∈ w_sent w ++ [r]) as Hsub.
    { intros y Hy. apply elem_of_app. by left. }
    rewrite <- assoc_L in Hx; [|apply _].
    apply elem_of_app in Hx as [Hx|Hx].
    + eapply origin_insert; [done|exact Hsub|].
      apply Ho, elem_of_app. by left.
    + apply elem_of_cons in Hx as [->|Hx].
      * exists n, (w_sends r w). split.
        -- apply list_lookup_insert_eq. eapply lookup_lt_Some. done.
        -- simpl. apply elem_of_app. right. by apply list_elem_of_singleton.
      * eapply origin_insert; [done|exact Hsub|].
        apply Ho, elem_of_app. by right.
  - (* receive *)
    apply Ho. rewrite H0.
    apply elem_of_app in Hx as [Hx|Hx].
    + apply elem_of_app. left. by right.
    + apply elem_of_cons in Hx as [->|Hx].
      * apply elem_of_app. left. by left.
      * apply elem_of_app. by right.
Qed.

Lemma session_ok_init query replicas :
  session_ok (DistributedQuery query replicas).
Proof.
  split; [|split; [|split; [|split]]].
  - apply workers_ok_init.
  - apply sync_ok_init.
  - apply ctx_ok_init.
  - apply collector_ok_init.
  - apply origin_ok_init.
Qed.

Lemma session_ok_step e s s' :
  step e s = Some s' → session_ok s → session_ok s'.
Proof.
  intros [_ H]%step_Step (? & ? & ? & ? & ?).
  split; [|split; [|split; [|split]]].
  - by eapply workers_ok_step.
  - by eapply sync_ok_step.
  - by eapply ctx_ok_step.
  - by eapply collector_ok_step.
  - by eapply origin_ok_step.
Qed.

Lemma session_ok_run sched s s' :
  run sched s = Some s' → session_ok s → session_ok s'.
Proof.
  revert s. induction sched as [|e sched IH]; simpl; intros s Hrun Hs.
  - by simplify_eq.
  - destruct (step e s) as [s1|] eqn:He; [|done].
    eapply IH; [done|]. by eapply session_ok_step.
Qed.

Lemma reachable_ok query replicas s :
  reachable query replicas s → session_ok s.
Proof. intros [sched H]. eapply session_ok_run; [done|apply session_ok_init]. Qed.

Lemma run_app sched1 sched2 s :
  run (sched1 ++ sched2) s =
  match run sched1 s with Some s' => run sched2 s' | None => None end.
Proof.
  revert s. induction sched1 as [|e l IH]; simpl; intros s; [done|].
  destruct (step e s); [apply IH|done].
Qed.

Lemma reachable_run query replicas sched s s' :
  reachable query replicas s → run sched s = Some s' →
  reachable query replicas s'.
Proof. intros [l Hl] H. exists (l ++ sched). by rewrite run_app, Hl. Qed.

(** ** The collector returns, once *)

Lemma run_cons e sched s s1 :
  step e s = Some s1 → run (e :: sched) s = run sched s1.
Proof. simpl. by intros ->. Qed.

Lemma finish_returns s :
  s_panic s = false → ∃ s' res, run (finish s) s = Some s' ∧ returned s' = Some res.
Proof.
  intros Hp. unfold finish, returned.
  destruct (s_collector s) as [|r|res|res] eqn:Hc.
  - destruct (s_ctx s) as [e|] eqn:Hctx.
    + eexists _, _.
      erewrite run_cons; [|apply Step_step; [done|by eapply StepTimeout]].
      erewrite run_cons; [|apply Step_step; [done|by eapply StepExit]].
      simpl. done.
    + eexists _, _.
      erewrite run_cons; [|apply Step_step; [done|eapply StepTick; lia]].
      erewrite run_cons;
        [|apply Step_step; [done|eapply StepDeadline; simpl; [done|lia]]].
      erewrite run_cons; [|apply Step_step; [done|by eapply StepTimeout]].
      erewrite run_cons; [|apply Step_step; [done|by eapply StepExit]].
      simpl. done.
  - eexists _, _.
    erewrite run_cons; [|apply Step_step; [done|by eapply StepCancel]].
    erewrite run_cons; [|apply Step_step; [done|by eapply StepExit]].
    simpl. done.
  - eexists _, _.
    erewrite run_cons; [|apply Step_step; [done|by eapply StepExit]].
    simpl. done.
  - eexists _, _. simpl. rewrite Hc. done.
Qed.

Lemma returned_step e s s' res :
  step e s = Some s' → returned s = Some res → returned s' = Some res.
Proof.
  intros [_ H]%step_Step. unfold returned.
  destruct H; collect_simpl; try done;
    match goal with H : s_collector _ = _ |- _ => rewrite H end; done.
Qed.

Lemma returned_run sched s s' res :
  run sched s = Some s' → returned s = Some res → returned s' = Some res.
Proof.
  revert s. induction sched as [|e sched IH]; simpl; intros s Hrun Hr.
  - by simplify_eq.
  - destruct (step e s) as [s1|] eqn:He; [|done].
    eapply IH; [done|]. by eapply returned_step.
Qed.

(** ** What was sent, and by whom *)

Lemma sent_reply now w r :
  worker_ok now w → r ∈ w_sent w →
  last_terminal w r ∧ w_sent w = [r] ∧ gone w ∧ w_seen w = false.
Proof.
  intros (_ & _ & _ & _ & Hpc) Hr. unfold gone, quiet, left_ok in *.
  destruct (w_pc w).
  - destruct Hpc as (_ & _ & _ & Hs & _). rewrite Hs in Hr.
    by apply elem_of_nil in Hr.
  - destruct Hpc as (_ & _ & _ & _ & _ & Hs & _). rewrite Hs in Hr.
    by apply elem_of_nil in Hr.
  - destruct Hpc as (_ & _ & Hs & _). rewrite Hs in Hr.
    by apply elem_of_nil in Hr.
  - destruct Hpc as (_ & _ & _ & Hs & _). rewrite Hs in Hr.
    by apply elem_of_nil in Hr.
  - destruct Hpc as ([[Hs _]|(? & r0 & ? & Hs)] & _); rewrite Hs in Hr.
    + by apply elem_of_nil in Hr.
    + apply list_elem_of_singleton in Hr as ->. auto.
  - destruct Hpc as ([[Hs _]|(? & r0 & ? & Hs)] & _); rewrite Hs in Hr.
    + by apply elem_of_nil in Hr.
    + apply list_elem_of_singleton in Hr as ->. auto.
Qed.

Lemma won_not_waiting s r : collector_ok s → won s r → s_collector s ≠ CSelect.
Proof.
  unfold collector_ok. intros Hc (Hr & earlier & Hrec & _) Hsel.
  rewrite Hsel, Hrec in Hc. apply Forall_cons in Hc as [Hf _]. by apply Hf.
Qed.

Lemma won_step e s s' r :
  step e s = Some s' → collector_ok s → won s r → won s' r.
Proof.
  intros [_ H]%step_Step Hc Hw. pose proof (won_not_waiting _ _ Hc Hw).
  unfold won in *. destruct H; collect_simpl; done.
Qed.

Lemma won_run sched s s' r :
  run sched s = Some s' → session_ok s → won s r → won s' r.
Proof.
  revert s. induction sched as [|e sched IH]; simpl; intros s Hrun Hs Hw.
  - by simplify_eq.
  - destruct (step e s) as [s1|] eqn:He; [|done].
    eapply IH; [done|by eapply session_ok_step|].
    eapply won_step; [done| |done]. apply Hs.
Qed.

Lemma won_decided s r res :
  won s r → decided s res → res = (Message r, None).
Proof.
  intros (Hr & earlier & Hrec & _) [(r' & -> & (_ & e' & Hrec' & _) & _)|[H|H]].
  - congruence.
  - destruct H as (_ & _ & _ & Hf). rewrite Hrec in Hf.
    apply Forall_cons in Hf as [Hf _]. by destruct Hf.
  - destruct H as (_ & _ & Hf). rewrite Hrec in Hf.
    apply Forall_cons in Hf as [Hf _]. by destruct Hf.
Qed.

Lemma received_origin s r :
  session_ok s → r ∈ s_resCh s ++ s_received s →
  ∃ n w, s_workers s !! n = Some w ∧ last_terminal w r ∧ w_sent w = [r] ∧
         gone w ∧ w_seen w = false.
Proof.
  intros (Hw & _ & _ & _ & Ho) Hr. destruct (Ho r Hr) as (n & w & Hn & Hs).
  exists n, w. split; [done|].
  eapply sent_reply; [|done]. eapply Forall_lookup_1 in Hw; done.
Qed.

Lemma drained_all_done s :
  sync_ok s → s_wg s = 0%Z → Forall (λ w, w_pc w = WDone) (s_workers s).
Proof.
  intros (_ & Hwg & _) H0. apply Forall_lookup_2. intros n w Hn.
  pose proof (sum_list_with_lookup pending _ _ _ Hn) as Hle.
  unfold pending in Hle at 1. destruct (w_pc w); try done; lia.
Qed.

Lemma closed_all_done s :
  sync_ok s → s_closed s = true → Forall (λ w, w_pc w = WDone) (s_workers s).
Proof.
  intros Hs Hcl. apply drained_all_done; [done|].
  destruct Hs as (_ & _ & _ & _ & Hj).
  destruct (s_janitor s); [congruence|destruct Hj; congruence|by destruct Hj].
Qed.

Lemma select_step e s s' :
  Step e s s' → s_collector s = CSelect →
  (e = EvRecv ∧ s_resCh s = [] ∧ s_closed s = true ∧
   s_collector s' = CExit ("", Some errAllFailed)) ∨
  (e = EvTimeout ∧ (∃ err, s_ctx s = Some err) ∧
   s_collector s' = CExit ("", Some errTimedOut)) ∨
  (e = EvRecv ∧ ∃ r rest, s_resCh s = r :: rest ∧
   s_collector s' = match Err r with None => CSuccess r | Some _ => CSelect end) ∨
  (e ≠ EvRecv ∧ e ≠ EvTimeout ∧ s_collector s' = CSelect).
Proof.
  destruct 1; collect_simpl; intros Hsel; try congruence;
    try (right; right; right; done).
  - right. right. left. eauto.
  - left. done.
  - right. left. eauto.
Qed.

(** ** A goroutine that has left its loop *)

Ltac at_worker n :=
  match goal with
  | H : s_workers ?s !! ?m = Some ?w |- context [<[?m:=_]> (s_workers ?s) !! n] =>
      let Hne := fresh "Hne" in
      destruct (decide (m = n)) as [->|Hne];
      [ rewrite list_lookup_insert_eq by (eapply lookup_lt_Some; exact H)
      | rewrite list_lookup_insert_ne by done ]
  end.

Lemma gone_step e s s' n w :
  Step e s s' → s_workers s !! n = Some w → gone w →
  ∃ w', s_workers s' !! n = Some w' ∧ gone w' ∧
        w_attempts w' = w_attempts w ∧ w_sent w' = w_sent w ∧
        w_seen w' = w_seen w.
Proof.
  unfold gone.
  destruct 1; collect_simpl; intros Hn Hl; try (by exists w);
    (at_worker n; [|by exists w]); simplify_eq;
    try (destruct Hl; congruence).
  eexists. split; [done|]. simpl. auto.
Qed.

Lemma gone_run sched s s' n w :
  run sched s = Some s' → s_workers s !! n = Some w → gone w →
  ∃ w', s_workers s' !! n = Some w' ∧ gone w' ∧
        w_attempts w' = w_attempts w ∧ w_sent w' = w_sent w ∧
        w_seen w' = w_seen w.
Proof.
  revert s w. induction sched as [|e sched IH]; simpl; intros s w Hrun Hn Hl.
  - simplify_eq. by exists w.
  - destruct (step e s) as [s1|] eqn:He; [|done].
    apply step_Step in He as [_ He].
    destruct (gone_step _ _ _ _ _ He Hn Hl) as (w1 & Hn1 & Hl1 & Ha & Hs & Hc).
    destruct (IH _ _ Hrun Hn1 Hl1) as (w' & ? & ? & ? & ? & ?).
    exists w'. repeat split; try done; congruence.
Qed.

Lemma spaced_lookup l k a b :
  spaced l → l !! S k = Some a → l !! k = Some b →
  (a_end a + retryInterval ≤ a_start b)%Z.
Proof.
  revert k. induction l as [|x l IH]; intros k Hsp Ha Hb; [done|].
  destruct Hsp as [Hx Hsp]. destruct k as [|k]; simpl in *.
  - simplify_eq. destruct l; simplify_eq/=. done.
  - by eapply IH.
Qed.

Lemma wg_positive s n w :
  sync_ok s → s_workers s !! n = Some w → w_pc w ≠ WDone → ¬ (s_wg s - 1 < 0)%Z.
Proof.
  intros (_ & Hwg & _) Hn Hpc.
  pose proof (sum_list_with_lookup pending _ _ _ Hn) as Hle.
  unfold pending in Hle at 1. destruct (w_pc w); try done; lia.
Qed.

Lemma exit_done s n w :
  sync_ok s → s_workers s !! n = Some w → w_pc w = WExit →
  step (EvWgDone n) s
  = Some (set_worker n (w_finished w) (set_wg (s_wg s - 1) s)).
Proof.
  intros Hs Hn Hpc. apply Step_step; [apply Hs|].
  apply StepWgDone; [done|done|]. eapply wg_positive; [done|done|congruence].
Qed.

Lemma lookup_set_worker s n w w' :
  s_workers s !! n = Some w → s_workers (set_worker n w' s) !! n = Some w'.
Proof. intros H. simpl. apply list_lookup_insert_eq. by eapply lookup_lt_Some. Qed.

Lemma wind_down_exit s n w :
  session_ok s → s_workers s !! n = Some w → w_pc w = WExit →
  ∃ s' w', run [EvWgDone n] s = Some s' ∧ s_workers s' !! n = Some w' ∧
           w_pc w' = WDone ∧ same_history w w' ∧ s_resCh s' = s_resCh s.
Proof.
  intros (_ & Hs & _) Hn Hpc. eexists _, _.
  erewrite run_cons; [|by apply exit_done]. simpl. split; [done|].
  split; [apply list_lookup_insert_eq; by eapply lookup_lt_Some|]. done.
Qed.

Lemma wind_down_head s n w i :
  session_ok s → s_workers s !! n = Some w → w_pc w = WHead i →
  ¬ i < maxAttempts →
  ∃ s' w', run [EvCheck n; EvWgDone n] s = Some s' ∧
           s_workers s' !! n = Some w' ∧
           w_pc w' = WDone ∧ same_history w w' ∧ s_resCh s' = s_resCh s.
Proof.
  intros Hok Hn Hpc Hi.
  assert (step (EvCheck n) s = Some (set_worker n (w_goto WExit w) s)) as Hst.
  { apply Step_step; [apply Hok|]. by eapply StepExhausted. }
  destruct (wind_down_exit (set_worker n (w_goto WExit w) s) n (w_goto WExit w))
    as (s' & w' & Hrun & ? & ? & ? & ?);
    [by eapply session_ok_step|by eapply lookup_set_worker|done|].
  exists s', w'. erewrite run_cons; [|done]. done.
Qed.

Lemma wind_down_backoff s n w i t0 :
  session_ok s → s_workers s !! n = Some w → w_pc w = WBackoff i t0 →
  ¬ S i < maxAttempts →
  ∃ s' w', run (wind_down n w s) s = Some s' ∧ s_workers s' !! n = Some w' ∧
           w_pc w' = WDone ∧ same_history w w' ∧ s_resCh s' = s_resCh s.
Proof.
  intros Hok Hn Hpc Hi. unfold wind_down. rewrite Hpc.
  set (d := Z.max 0 (t0 + retryInterval - s_clock s)).
  assert (step (EvTick d) s = Some (set_clock (s_clock s + d) s)) as H1.
  { apply Step_step; [apply Hok|]. apply StepTick. lia. }
  set (s1 := set_clock (s_clock s + d) s) in *.
  assert (step (EvTimer n) s1 = Some (set_worker n (w_goto (WHead (S i)) w) s1))
    as H2.
  { apply Step_step; [apply Hok|]. eapply StepTimer; [done|done|simpl; lia]. }
  assert (session_ok s1) as Hok1 by by eapply session_ok_step.
  destruct (wind_down_head (set_worker n (w_goto (WHead (S i)) w) s1) n
              (w_goto (WHead (S i)) w) (S i))
    as (s' & w' & Hrun & ? & ? & ? & ?);
    [by eapply session_ok_step|by eapply (lookup_set_worker s1)|done|done|].
  exists s', w'. erewrite run_cons; [|done]. erewrite run_cons; [|done]. done.
Qed.

Lemma attempts_step e s s' n w :
  Step e s s' → s_workers s !! n = Some w →
  ∃ w', s_workers s' !! n = Some w' ∧ w_attempts w `suffix_of` w_attempts w'.
Proof.
  destruct 1; collect_simpl; intros Hn; try (by exists w);
    (at_worker n; [|by exists w]); simplify_eq;
    eexists; (split; [done|]); simpl; try done;
    by apply suffix_cons_r.
Qed.

Lemma attempts_run sched s s' n w :
  run sched s = Some s' → s_workers s !! n = Some w →
  ∃ w', s_workers s' !! n = Some w' ∧ w_attempts w `suffix_of` w_attempts w'.
Proof.
  revert s w. induction sched as [|e sched IH]; simpl; intros s w Hrun Hn.
  - simplify_eq. by exists w.
  - destruct (step e s) as [s1|] eqn:He; [|done].
    apply step_Step in He as [_ He].
    destruct (attempts_step _ _ _ _ _ He Hn) as (w1 & Hn1 & Hs1).
    destruct (IH _ _ Hrun Hn1) as (w' & ? & ?).
    exists w'. split; [done|]. by etrans.
Qed.

Lemma exhausted_quiet now w :
  worker_ok now w → exhausted w →
  w_sent w = [] ∧
  match w_pc w with
  | WHead i => ¬ i < maxAttempts
  | WBackoff i _ => ¬ S i < maxAttempts
  | WExit | WDone => True
  | _ => False
  end.
Proof.
  intros (_ & _ & _ & _ & Hpc) [Hlen Hall].
  assert (∀ r, ¬ last_terminal w r) as Hno.
  { intros r (a & older & Ha & Hterm & _). rewrite Ha in Hall.
    apply Forall_cons in Hall as [Hr _]. unfold retryable in Hr. congruence. }
  unfold quiet, left_ok in Hpc. destruct (w_pc w).
  - destruct Hpc as (? & _ & _ & ? & _). split; [done|lia].
  - destruct Hpc as (? & ? & _). lia.
  - destruct Hpc as (_ & Hl & _). by apply Hno in Hl.
  - destruct Hpc as (? & _ & _ & ? & _). split; [done|lia].
  - destruct Hpc as ([[? _]|(_ & r & Hl & _)] & _); [done|by apply Hno in Hl].
  - destruct Hpc as ([[? _]|(_ & r & Hl & _)] & _); [done|by apply Hno in Hl].
Qed.

Lemma sent_at_most_one now w :
  worker_ok now w → nsent w ≤ 1 ∧ (w_sent w ≠ [] → gone w).
Proof.
  intros Hok. unfold nsent. destruct (w_sent w) as [|r l] eqn:Hs.
  - simpl. split; [lia|done].
  - destruct (sent_reply now w r Hok) as (_ & Hs' & Hg & _).
    { rewrite Hs. by left. }
    rewrite Hs in Hs'. simplify_eq/=. split; [lia|done].
Qed.

Lemma send_enabled s n w i r :
  session_ok s → s_workers s !! n = Some w → w_pc w = WSend i r →
  s_closed s = false ∧ length (s_resCh s) < s_cap s.
Proof.
  intros (Hw & Hs & _) Hn Hpc. split.
  - destruct (s_closed s) eqn:Hcl; [|done].
    pose proof (closed_all_done _ Hs Hcl) as Hall.
    eapply Forall_lookup_1 in Hall; [|done]. simpl in Hall. congruence.
  - destruct Hs as (_ & _ & -> & Hch & _).
    assert (sum_list_with nsent (s_workers s) < length (s_workers s)); [|lia].
    eapply sum_list_with_bound; [|done|].
    + eapply Forall_impl; [exact Hw|]. intros x Hx.
      by apply (sent_at_most_one _ _ Hx).
    + eapply Forall_lookup_1 in Hw; [|done].
      destruct Hw as (_ & _ & _ & _ & Hw). rewrite Hpc in Hw.
      destruct Hw as (_ & _ & Hq & _). unfold nsent. by rewrite Hq.
Qed.

(** ** Cancellation *)

Lemma seen_gone now w :
  worker_ok now w → w_seen w = true → w_sent w = [] ∧ gone w.
Proof.
  intros (_ & _ & _ & _ & Hpc) Hseen. unfold quiet, left_ok, gone in *.
  destruct (w_pc w).
  - destruct Hpc as (_ & _ & _ & _ & ? & _). congruence.
  - destruct Hpc as (_ & _ & _ & _ & _ & _ & ? & _). congruence.
  - destruct Hpc as (_ & _ & _ & ? & _). congruence.
  - destruct Hpc as (_ & _ & _ & _ & ? & _). congruence.
  - destruct Hpc as ([[? _]|[? _]] & _); [auto|congruence].
  - destruct Hpc as ([[? _]|[? _]] & _); [auto|congruence].
Qed.

Lemma ctx_step e s s' : Step e s s' → s_ctx s ≠ None → s_ctx s' ≠ None.
Proof.
  destruct 1; collect_simpl; intros Hc; try done; apply cancel_Some.
Qed.

Lemma started_step e s s' n w :
  Step e s s' → s_ctx s ≠ None → s_workers s !! n = Some w →
  ∃ w', s_workers s' !! n = Some w' ∧ started w' = started w.
Proof.
  unfold started.
  destruct 1; collect_simpl; intros Hc Hn; try (by exists w); try done;
    (at_worker n; [|by exists w]); simplify_eq;
    (eexists; split; [done|]); simpl;
    match goal with H : w_pc _ = _ |- _ => rewrite H end; lia.
Qed.

Lemma started_run sched s s' n w :
  run sched s = Some s' → s_ctx s ≠ None → s_workers s !! n = Some w →
  ∃ w', s_workers s' !! n = Some w' ∧ started w' = started w.
Proof.
  revert s w. induction sched as [|e sched IH]; simpl; intros s w Hrun Hc Hn.
  - simplify_eq. by exists w.
  - destruct (step e s) as [s1|] eqn:He; [|done].
    apply step_Step in He as [_ He].
    destruct (started_step _ _ _ _ _ He Hc Hn) as (w1 & Hn1 & Hs1).
    destruct (IH _ _ Hrun (ctx_step _ _ _ He Hc) Hn1) as (w' & ? & ?).
    exists w'. split; [done|]. congruence.
Qed.

(** ** Not-found replies *)

Lemma errors_Is_chain err target :
  errors_Is err target = true ↔ target ∈ unwrap_chain err.
Proof.
  induction err as [|msg|msg inner IH| |]; simpl;
    rewrite orb_true_iff, bool_decide_eq_true, elem_of_cons;
    try rewrite IH; split; intros [?|?]; auto;
    try (by right); try done; by apply elem_of_nil in H.
Qed.

Lemma success_returns s r rest :
  s_panic s = false → s_collector s = CSelect → s_resCh s = r :: rest →
  Err r = None →
  ∃ s3, run [EvRecv; EvCancel; EvExit] s = Some s3 ∧
        returned s3 = Some (Message r, None).
Proof.
  intros Hp Hsel Hch Hr. eexists.
  erewrite run_cons; [|apply Step_step; [done|by eapply StepRecv]].
  erewrite run_cons;
    [|apply Step_step;
      [by collect_simpl|eapply StepCancel; collect_simpl; by rewrite Hr]].
  erewrite run_cons;
    [|apply Step_step; [by collect_simpl|by eapply StepExit]].
  simpl. done.
Qed.

(** ** Closing the channel *)

Lemma all_done_wg s :
  sync_ok s → Forall (λ w, w_pc w = WDone) (s_workers s) → s_wg s = 0%Z.
Proof.
  intros (_ & -> & _) Hall.
  assert (sum_list_with pending (s_workers s) = 0) as ->; [|done].
  induction Hall as [|w l Hw _ IH]; simpl; [done|].
  unfold pending at 1. by rewrite Hw.
Qed.

Lemma close_up_closes s :
  sync_ok s → Forall (λ w, w_pc w = WDone) (s_workers s) →
  ∃ s', run (close_up s) s = Some s' ∧ s_closed s' = true ∧
        s_collector s' = s_collector s ∧ s_resCh s' = s_resCh s ∧
        s_panic s' = false ∧ s_clock s' = s_clock s.
Proof.
  intros Hs Hall. pose proof (all_done_wg _ Hs Hall) as Hwg.
  destruct Hs as (Hp & _ & _ & _ & Hj). unfold close_up.
  destruct (s_janitor s) eqn:Hjan.
  - eexists.
    erewrite run_cons; [|apply Step_step; [done|by eapply StepWait]].
    erewrite run_cons; [|apply Step_step; [done|by eapply StepClose]].
    done.
  - destruct Hj as [Hcl _]. eexists.
    erewrite run_cons; [|apply Step_step; [done|by eapply StepClose]].
    done.
  - destruct Hj as [Hcl _]. by exists s.
Qed.

Lemma drain_decides ch s :
  s_panic s = false → s_collector s = CSelect → s_closed s = true →
  s_resCh s = ch →
  ∃ s', run (drain ch) s = Some s' ∧ s_closed s' = true ∧
        (s_collector s' = CExit ("", Some errAllFailed) ∨
         ∃ r, r ∈ ch ∧ Err r = None ∧ s_collector s' = CSuccess r).
Proof.
  revert s. induction ch as [|r rest IH]; intros s Hp Hsel Hcl Hch.
  - eexists. cbn [drain].
    erewrite run_cons; [|apply Step_step; [done|by eapply StepRecvClosed]].
    split; [done|]. split; [done|]. by left.
  - assert (step EvRecv s = Some (collect r (took r (set_resCh rest s)))) as Hst.
    { apply Step_step; [done|by eapply StepRecv]. }
    cbn [drain]. destruct (Err r) eqn:Hr.
    + destruct (IH (collect r (took r (set_resCh rest s))))
        as (s' & Hrun & ? & Hres); try (by collect_simpl).
      { collect_simpl. by rewrite Hr. }
      exists s'. rewrite (run_cons _ _ _ _ Hst).
      split; [done|]. split; [done|].
      destruct Hres as [?|(r' & ? & ? & ?)]; [by left|].
      right. exists r'. split; [by right|done].
    + eexists. rewrite (run_cons _ _ _ _ Hst).
      split; [done|]. collect_simpl. rewrite Hr.
      split; [done|]. right. exists r. split; [by left|done].
Qed.

Lemma lands_on_exit e s s' n w w' :
  Step e s s' → s_workers s !! n = Some w → s_workers s' !! n = Some w' →
  (gone w' → ¬ gone w → w_pc w' = WExit) ∧
  (w_pc w' = WDone → w_pc w = WDone ∨ (w_pc w = WExit ∧ e = EvWgDone n)) ∧
  (w_done w' = w_done w ∨ (e = EvWgDone n ∧ w_done w' = S (w_done w))).
Proof.
  unfold gone.
  destruct 1; collect_simpl; intros Hn Hn';
    try (simplify_eq; repeat split; auto; tauto);
    revert Hn'; (at_worker n; intros Hn'; simplify_eq; simpl;
                 [|repeat split; auto; tauto]);
    repeat split; auto; try tauto; try (intros; congruence);
    by intros [?|?].
Qed.

(** ** Eager schedules *)

Lemma busy_intro e s :
  e ∈ internal s → is_Some (step e s) → busy s = true.
Proof.
  intros He [s' Hs]. unfold busy. apply existsb_exists. exists e.
  split; [by apply list_elem_of_In|]. unfold enabled. by rewrite Hs.
Qed.

Lemma busy_collector s :
  s_panic s = false → s_ctx s ≠ None → returned s = None → busy s = true.
Proof.
  intros Hp Hc Hr. unfold returned in Hr.
  destruct (s_collector s) as [|r|res|res] eqn:Hpc; [| | |done].
  - apply (busy_intro EvTimeout); [unfold internal; set_solver|].
    destruct (s_ctx s) as [e|] eqn:He; [|done].
    eexists. apply Step_step; [done|by eapply StepTimeout].
  - apply (busy_intro EvCancel); [unfold internal; set_solver|].
    eexists. apply Step_step; [done|by eapply StepCancel].
  - apply (busy_intro EvExit); [unfold internal; set_solver|].
    eexists. apply Step_step; [done|by eapply StepExit].
Qed.

Lemma clock_step e s s' :
  Step e s s' →
  s_clock s' = s_clock s ∨ ∃ d, e = EvTick d ∧ s_clock s' = (s_clock s + d)%Z.
Proof. destruct 1; collect_simpl; eauto. Qed.

Lemma returned_back e s s' :
  step e s = Some s' → returned s' = None → returned s = None.
Proof.
  intros Hst Hr. destruct (returned s) as [res|] eqn:Hres; [|done].
  by rewrite (returned_step _ _ _ _ Hst Hres) in Hr.
Qed.

Lemma eager_step_bound e sched s s' :
  session_ok s → eager (e :: sched) s → step e s = Some s' →
  (returned s = None → (s_clock s ≤ totalTimeout)%Z) →
  returned s' = None → (s_clock s' ≤ totalTimeout)%Z.
Proof.
  intros Hok [He _] Hst Hs Hr'.
  pose proof (returned_back _ _ _ Hst Hr') as Hr. specialize (Hs Hr).
  pose proof Hok as (_ & (Hp & _) & (Hd & _) & _).
  pose proof Hst as [_ HS]%step_Step.
  destruct (clock_step _ _ _ HS) as [->|(d & -> & ->)]; [done|].
  destruct He as [Hb Hdl]. destruct (s_ctx s) as [c|] eqn:Hc.
  - rewrite busy_collector in Hb; [done|done| |done]. by rewrite Hc.
  - rewrite Hd in Hdl. by apply Hdl.
Qed.

Lemma eager_bound sched s s' :
  session_ok s → eager sched s → run sched s = Some s' →
  (returned s = None → (s_clock s ≤ totalTimeout)%Z) →
  returned s' = None → (s_clock s' ≤ totalTimeout)%Z.
Proof.
  revert s. induction sched as [|e sched IH]; intros s Hok He Hrun Hs.
  - simpl in Hrun. by simplify_eq.
  - simpl in Hrun. destruct (step e s) as [s1|] eqn:Hst; [|done].
    eapply (IH s1); [by eapply session_ok_step| |done|].
    + destruct He as [_ He]. by rewrite Hst in He.
    + by eapply eager_step_bound.
Qed.

(** ** No replicas *)

Lemma no_workers_step e s s' :
  Step e s s' → s_workers s = [] → s_workers s' = [].
Proof.
  destruct 1; collect_simpl; intros Hnil; try done;
    rewrite Hnil in *; by rewrite lookup_nil in *.
Qed.

Lemma no_workers_run sched s s' :
  run sched s = Some s' → s_workers s = [] → s_workers s' = [].
Proof.
  revert s. induction sched as [|e sched IH]; simpl; intros s Hrun Hnil.
  - by simplify_eq.
  - destruct (step e s) as [s1|] eqn:He; [|done].
    apply step_Step in He as [_ He]. eapply IH; [done|].
    by eapply no_workers_step.
Qed.

Lemma result_unless_won s res :
  session_ok s → s_received s = [] →
  s_collector s = CExit res ∨ s_collector s = CReturned res →
  res = ("", Some errAllFailed) ∨
  (res = ("", Some errTimedOut) ∧ (totalTimeout ≤ s_clock s)%Z).
Proof.
  intros (_ & _ & (_ & _ & Hctx) & Hc & _) Hrec Hres. unfold collector_ok in Hc.
  assert (decided s res) as Hd.
  { destruct Hres as [Hres|Hres]; rewrite Hres in Hc; [done|by destruct Hc]. }
  destruct Hd as [(r & _ & (_ & l & Hl & _) & _)|[(? & _)|(? & Hx & _)]].
  - congruence.
  - by left.
  - right. split; [done|]. rewrite Hx in Hctx.
    destruct Hctx as [[_ ?]|[? _]]; done.
Qed.

Lemma before_deadline s :
  session_ok s → (s_clock s < totalTimeout)%Z → s_collector s = CSelect →
  s_ctx s = None.
Proof.
  intros (_ & _ & (_ & _ & Hctx) & _) Hlt Hsel.
  destruct (s_ctx s) as [e|]; [|done]. rewrite Hsel in Hctx.
  destruct Hctx as [[_ ?]|[_ []]]. lia.
Qed.

Lemma no_workers_quiet s :
  sync_ok s → s_workers s = [] →
  s_wg s = 0%Z ∧ s_resCh s = [] ∧ s_received s = [].
Proof.
  intros (_ & Hwg & _ & Hch & _) Hnil. rewrite Hnil in *. simpl in *.
  split; [done|]. destruct (s_resCh s), (s_received s); simpl in Hch; try lia.
  done.
Qed.

Lemma busy_without_workers s :
  session_ok s → s_workers s = [] → returned s = None → busy s = true.
Proof.
  intros (_ & Hs & _) Hnil Hr. pose proof Hs as (Hp & _ & _ & _ & Hj).
  destruct (no_workers_quiet s Hs Hnil) as (Hwg & Hch & _).
  destruct (s_janitor s) eqn:Hjan.
  - apply (busy_intro EvWait); [unfold internal; set_solver|].
    eexists. apply Step_step; [done|by eapply StepWait].
  - destruct Hj as [Hcl _].
    apply (busy_intro EvClose); [unfold internal; set_solver|].
    eexists. apply Step_step; [done|by eapply StepClose].
  - destruct Hj as [Hcl _]. unfold returned in Hr.
    destruct (s_collector s) as [|r|res|res] eqn:Hpc; [| | |done].
    + apply (busy_intro EvRecv); [unfold internal; set_solver|].
      eexists. apply Step_step; [done|by eapply StepRecvClosed].
    + apply (busy_intro EvCancel); [unfold internal; set_solver|].
      eexists. apply Step_step; [done|by eapply StepCancel].
    + apply (busy_intro EvExit); [unfold internal; set_solver|].
      eexists. apply Step_step; [done|by eapply StepExit].
Qed.

Lemma returned_from e s s' res :
  Step e s s' → s_collector s' = CReturned res →
  s_collector s = CReturned res ∨ s_collector s = CExit res.
Proof.
  destruct 1; collect_simpl; intros Hc; try (by left); try done.
  - destruct (Err r); done.
  - simplify_eq. by right.
Qed.

Lemma all_failed_at_zero s res :
  session_ok s → s_received s = [] → s_clock s = 0%Z →
  s_collector s = CExit res ∨ s_collector s = CReturned res →
  res = ("", Some errAllFailed).
Proof.
  intros Hok Hrec Hclk Hres.
  destruct (result_unless_won s res Hok Hrec Hres) as [?|[_ Hlate]]; [done|].
  rewrite Hclk in Hlate. unfold totalTimeout, Second, Millisecond in Hlate. lia.
Qed.

Lemma eager_empty sched s s' :
  session_ok s → s_workers s = [] → eager sched s → run sched s = Some s' →
  at_once s → at_once s'.
Proof.
  revert s. induction sched as [|e sched IH]; intros s Hok Hnil He Hrun Hs.
  - simpl in Hrun. by simplify_eq.
  - simpl in Hrun. destruct (step e s) as [s1|] eqn:Hst; [|done].
    pose proof Hst as [_ HS]%step_Step.
    eapply (IH s1); [by eapply session_ok_step|by eapply no_workers_step| |done|].
    { destruct He as [_ He]. by rewrite Hst in He. }
    destruct Hs as [Hzero Hres]. split.
    + intros Hr1. pose proof (returned_back _ _ _ Hst Hr1) as Hr.
      destruct (clock_step _ _ _ HS) as [->|(d & -> & _)]; [by apply Hzero|].
      destruct He as [[Hb _] _].
      by rewrite busy_without_workers in Hb.
    + intros res Hc1.
      destruct (returned_from _ _ _ _ HS Hc1) as [Hc|Hc]; [by apply Hres|].
      pose proof Hok as (_ & Hsync & _).
      destruct (no_workers_quiet s Hsync Hnil) as (_ & _ & Hrec).
      eapply all_failed_at_zero; [done|done| |by left].
      apply Hzero. unfold returned. by rewrite Hc.
Qed.

(** ** Output and timing *)

Lemma output_ok_step e s s' : Step e s s' → output_ok s → output_ok s'.
Proof.
  unfold output_ok. destruct 1; simpl; intros Ho; try done.
  unfold collect, line_of.
  destruct (Err r) as [err|] eqn:Hr; [destruct (errors_Is err ErrNotFound) eqn:Hnf|];
    simpl; rewrite reverse_cons, omap_app; simpl; unfold line_of;
    rewrite Hr, ?Hnf; simpl; rewrite Ho; by rewrite ?app_nil_r.
Qed.

Lemma clock_mono e s s' : Step e s s' → (s_clock s ≤ s_clock s')%Z.
Proof. intros H. destruct (clock_step _ _ _ H) as [->|(d & -> & ->)]; [done|]. inversion H; lia. Qed.

Lemma rested_later t t' l : (t ≤ t')%Z → rested t l → rested t' l.
Proof. unfold rested. destruct l; [done|lia]. Qed.

Lemma worker_timing_frame e s s' w :
  step e s = Some s' → session_ok s → worker_timing s w → worker_timing s' w.
Proof.
  intros Hst Hok (Hstart & Hcall & Hseen & Hgone).
  pose proof Hst as [_ HS]%step_Step. pose proof (clock_mono _ _ _ HS) as Hclk.
  split; [done|]. split; [done|]. split.
  - intros Hs. destruct (Hseen Hs) as [?|[r Hr]]; [left; lia|right].
    exists r. eapply won_step; [done| |done]. apply Hok.
  - intros Hg Hsent Hs. destruct (Hgone Hg Hsent Hs) as [? Hr].
    split; [done|]. by eapply rested_later.
Qed.

Lemma cancel_seen_reason s e n w :
  session_ok s → s_ctx s = Some e → s_workers s !! n = Some w →
  w_pc w ≠ WDone → (totalTimeout ≤ s_clock s)%Z ∨ ∃ r, won s r.
Proof.
  intros (_ & Hsync & (_ & _ & Hctx) & Hc & _) He Hn Hpc. rewrite He in Hctx.
  destruct Hctx as [[_ ?]|[-> Hex]]; [by left|]. unfold collector_ok in Hc.
  assert (∃ res, decided s res) as [res Hd].
  { destruct (s_collector s); try done; [by eexists|destruct Hc; by eexists]. }
  destruct Hd as [(r & _ & ? & _)|[(_ & Hcl & _)|(_ & ? & _)]].
  - right. by exists r.
  - pose proof (closed_all_done _ Hsync Hcl) as Hall.
    eapply Forall_lookup_1 in Hall; [|done]. done.
  - congruence.
Qed.

Lemma timing_ok_init query replicas : timing_ok (DistributedQuery query replicas).
Proof.
  unfold timing_ok. simpl. apply Forall_fmap, Forall_forall. intros rep _.
  unfold worker_timing, gone; simpl.
  split; [done|]. split; [done|]. split; [done|]. by intros [?|?].
Qed.

Ltac by_gone :=
  match goal with H : _ = WExit ∨ _ = WDone |- _ => by destruct H end.

Lemma timing_ok_step e s s' :
  step e s = Some s' → session_ok s → timing_ok s → timing_ok s'.
Proof.
  intros Hst Hok Ht. pose proof Hst as [_ HS]%step_Step.
  assert (∀ w, worker_timing s w → worker_timing s' w) as Hframe.
  { intros w. by eapply worker_timing_frame. }
  assert (Forall (worker_timing s') (s_workers s)) as Hrest.
  { eapply Forall_impl; [exact Ht|exact Hframe]. }
  pose proof Hok as (Hw & _ & (_ & Hclk & _) & _).
  unfold timing_ok in *.
  destruct HS; collect_simpl; simpl in Hrest; try done;
    (apply Forall_insert; [done|]);
    match goal with H : s_workers _ !! _ = Some _ |- _ =>
      pose proof (Forall_lookup_1 _ _ _ _ Ht H) as (Hstart & Hcall & Hseen & Hgone);
      pose proof (Forall_lookup_1 _ _ _ _ Hw H) as (Hlen & _ & _ & _ & Hpc);
      pose proof H as Hlook
    end;
    match goal with H : w_pc _ = _ |- _ =>
      rewrite H in Hpc; pose proof H as Hpcw end;
    unfold worker_timing, gone in *; simpl.
  - (* exhausted *)
    destruct Hpc as (? & _ & ? & _). repeat split; try done. lia.
  - (* cancellation seen at the loop head *)
    repeat split; try done. intros _.
    destruct (cancel_seen_reason s e n w) as [?|[r Hr]];
      [done|done|done|congruence|by left|right; by exists r].
  - (* call *)
    repeat split; try done; try by_gone. intros ?? [= <- <-]. done.
  - (* terminal return *)
    repeat split; try done; try by_gone.
    constructor; [|done]. simpl. by eapply Hcall.
  - (* retryable return *)
    repeat split; try done; try by_gone.
    constructor; [|done]. simpl. by eapply Hcall.
  - (* send *)
    repeat split; try done;
      match goal with H : _ ++ [_] = [] |- _ => by destruct (w_sent w) end.
  - (* timer *)
    repeat split; try done; by_gone.
  - (* cancellation seen during the wait *)
    repeat split; try done. intros _.
    destruct (cancel_seen_reason s e n w) as [?|[r Hr]];
      [done|done|done|congruence|by left|right; by exists r].
  - (* wg.Done *)
    repeat split; try done; intros; apply Hgone; auto.
Qed.

Lemma more_ok_run sched s s' :
  run sched s = Some s' → session_ok s → output_ok s ∧ timing_ok s →
  output_ok s' ∧ timing_ok s'.
Proof.
  revert s. induction sched as [|e sched IH]; simpl; intros s Hrun Hok [Ho Ht].
  - by simplify_eq.
  - destruct (step e s) as [s1|] eqn:He; [|done].
    eapply (IH s1); [done|by eapply session_ok_step|]. split.
    + apply step_Step in He as [_ He]. by eapply output_ok_step.
    + by eapply timing_ok_step.
Qed.

Lemma reachable_more query replicas s :
  reachable query replicas s → output_ok s ∧ timing_ok s.
Proof.
  intros [sched H]. eapply more_ok_run; [done|apply session_ok_init|].
  split; [done|apply timing_ok_init].
Qed.

Lemma workers_length_step e s s' :
  Step e s s' → length (s_workers s') = length (s_workers s).
Proof. destruct 1; collect_simpl; rewrite ?length_insert; done. Qed.

Lemma workers_length query replicas s :
  reachable query replicas s → length (s_workers s) = length replicas.
Proof.
  intros [sched H]. revert H.
  assert (length (s_workers (DistributedQuery query replicas)) = length replicas)
    as Hinit by (simpl; by rewrite length_fmap).
  revert Hinit. generalize (DistributedQuery query replicas).
  induction sched as [|e sched IH]; simpl; intros s0 Hlen Hrun.
  - by simplify_eq.
  - destruct (step e s0) as [s1|] eqn:He; [|done].
    eapply (IH s1); [|done]. apply step_Step in He as [_ He].
    by rewrite (workers_length_step _ _ _ He).
Qed.

Lemma attempt_not_before l :
  spaced l → Forall (λ a, (0 ≤ a_start a)%Z) l →
  Forall (λ a, (a_start a ≤ a_end a)%Z) l →
  ∀ k a, reverse l !! k = Some a → (Z.of_nat k * retryInterval ≤ a_start a)%Z.
Proof.
  induction l as [|b l IH]; intros Hsp Hpos Hle k a Hk; [done|].
  destruct Hsp as [Hb Hsp]. apply Forall_cons in Hpos as [Hb0 Hpos].
  apply Forall_cons in Hle as [_ Hle].
  rewrite reverse_cons in Hk.
  destruct (decide (k < length (reverse l))) as [Hlt|Hge].
  - rewrite lookup_app_l in Hk by done. by eapply IH.
  - rewrite lookup_app_r in Hk by lia. rewrite length_reverse in *.
    destruct (k - length l) as [|j] eqn:Hd; [|done]. simpl in Hk. simplify_eq.
    assert (k = length l) as -> by lia.
    destruct l as [|a' l']; [simpl; lia|].
    pose proof (IH Hsp Hpos Hle (length l') a') as Hprev.
    rewrite reverse_cons, lookup_app_r, length_reverse in Hprev
      by (rewrite length_reverse; lia).
    replace (length l' - length l') with 0 in Hprev by lia.
    specialize (Hprev eq_refl).
    apply Forall_cons in Hle as [Hle' _]. simpl length. lia.
Qed.

Lemma kept_ok_step e s s' : Step e s s' → kept_ok s → kept_ok s'.
Proof.
  unfold kept_ok.
  destruct 1; collect_simpl; intros Hk n' w' r' Hl Hin; try (by eapply Hk);
    try (destruct (decide (n' = n)) as [->|Hne];
         [rewrite list_lookup_insert_eq in Hl by (by eapply lookup_lt_Some);
          simplify_eq/=
         |rewrite list_lookup_insert_ne in Hl by done]);
    try (by eapply Hk).
  - apply elem_of_app in Hin as [Hin| ->%list_elem_of_singleton].
    + specialize (Hk _ _ _ H Hin). rewrite !elem_of_app in *. tauto.
    + rewrite !elem_of_app, list_elem_of_singleton. tauto.
  - specialize (Hk _ _ _ Hl Hin). rewrite !elem_of_app in *. tauto.
  - specialize (Hk _ _ _ Hl Hin). rewrite H0 in Hk.
    rewrite !elem_of_app, !elem_of_cons in *. tauto.
Qed.

Lemma kept_ok_run sched s s' : run sched s = Some s' → kept_ok s → kept_ok s'.
Proof.
  revert s. induction sched as [|e sched IH]; simpl; intros s Hrun Hk.
  - by simplify_eq.
  - destruct (step e s) as [s1|] eqn:He; [|done].
    eapply (IH s1); [done|]. apply step_Step in He as [_ He].
    by eapply kept_ok_step.
Qed.

Lemma reachable_kept query replicas s : reachable query replicas s → kept_ok s.
Proof.
  intros [sched H]. eapply kept_ok_run; [done|].
  intros n w r Hn Hr. simpl in Hn. rewrite list_lookup_fmap in Hn.
  destruct (replicas !! n); simplify_eq/=. by apply elem_of_nil in Hr.
Qed.

Lemma taken_shape s r :
  session_ok s → r ∈ s_resCh s ++ s_received s →
  Host r = "" ∧ terminal (Err r) = true.
Proof.
  intros Hok Hr.
  destruct (received_origin s r Hok Hr) as (n & w & _ & Hlast & _).
  by destruct Hlast as (a & older & _ & Ha & ->).
Qed.

Lemma line_of_host r l : line_of r = Some l → line_host l = Host r.
Proof.
  unfold line_of. destruct (Err r) as [e|]; [destruct (errors_Is e ErrNotFound)|];
    intros; by simplify_eq/=.
Qed.

Lemma line_of_terminal r : terminal (Err r) = true → is_Some (line_of r).
Proof.
  unfold line_of, terminal. destruct (Err r) as [e|]; [|by eexists].
  intros ->. by eexists.
Qed.

Lemma omap_length_total {A B} (f : A → option B) (l : list A) :
  Forall (λ x, is_Some (f x)) l → length (omap f l) = length l.
Proof.
  induction 1 as [|x l [y Hy] _ IH]; [done|].
  cbn. rewrite Hy. cbn. f_equal. exact IH.
Qed.

Lemma won_or_failed s :
  collector_ok s → (∃ r, won s r) ∨ Forall failed (s_received s).
Proof.
  unfold collector_ok. destruct (s_collector s) as [|r|res|res]; intros Hc.
  - by right.
  - left. by exists r.
  - destruct Hc as [(r & _ & ? & _)|[(_ & _ & _ & ?)|(_ & _ & ?)]];
      [left; by exists r|by right|by right].
  - destruct Hc as [[(r & _ & ? & _)|[(_ & _ & _ & ?)|(_ & _ & ?)]] _];
      [left; by exists r|by right|by right].
Qed.

Lemma failed_no_success l k host msg :
  Forall failed l → omap line_of l !! k = Some (SuccessFrom host msg) → False.
Proof.
  intros Hf Hk. apply list_elem_of_lookup_2 in Hk.
  apply list_elem_of_omap in Hk as (r & Hr & Hl).
  pose proof (proj1 (Forall_forall _ _) Hf r Hr) as Hfr.
  unfold line_of, failed in *. destruct (Err r) as [e|]; [|done].
  by destruct (errors_Is e ErrNotFound).
Qed.

Lemma gone_unsent_waited s w :
  worker_ok (s_clock s) w → worker_timing s w → gone w → w_sent w = [] →
  (Z.of_nat maxAttempts * retryInterval ≤ s_clock s)%Z ∨ ∃ r, won s r.
Proof.
  intros (Hlen & _ & Hsp & Hle & _) (Hstart & _ & Hseen & Hgone) Hg Hsent.
  destruct (w_seen w) eqn:Hs.
  - destruct (Hseen eq_refl) as [Ht|?]; [left|by right].
    unfold maxAttempts, retryInterval, totalTimeout, Second, Millisecond in *. lia.
  - left. destruct (Hgone Hg Hsent eq_refl) as [Hn Hr].
    destruct (w_attempts w) as [|a older] eqn:Ha; [done|].
    pose proof (attempt_not_before (a :: older) Hsp Hstart) as Hk.
    specialize (Hk ltac:(eapply Forall_impl; [exact Hle|simpl; intros; lia])
                  (length older) a).
    rewrite reverse_cons, lookup_app_r, length_reverse in Hk
      by (rewrite length_reverse; lia).
    replace (length older - length older) with 0 in Hk by lia.
    specialize (Hk eq_refl). apply Forall_cons in Hle as [Hle _].
    simpl in Hr, Hn. unfold maxAttempts in *.
    assert (length older = 2) as Hl by lia. rewrite Hl in Hk. lia.
Qed.

(** ** Every goroutine ends *)

Lemma aside_trans n s1 s2 s3 : aside n s1 s2 → aside n s2 s3 → aside n s1 s3.
Proof.
  intros (? & ? & ? & ? & w2 & Hw2) (? & ? & ? & ? & w3 & Hw3).
  repeat split; try congruence. exists w3.
  by rewrite Hw3, Hw2, list_insert_insert_eq.
Qed.

Lemma retire_exit s n w :
  session_ok s → s_workers s !! n = Some w → w_pc w = WExit →
  ∃ s', run [EvWgDone n] s = Some s' ∧ aside n s s' ∧ done_at n s'.
Proof.
  intros (_ & Hs & _) Hn Hpc. eexists.
  erewrite run_cons; [|by apply exit_done]. split; [done|]. split.
  - repeat split; try done. by eexists.
  - intros w'. simpl. rewrite list_lookup_insert_eq by (by eapply lookup_lt_Some).
    by intros [= <-].
Qed.

Lemma retire_via_exit e s s1 n w1 :
  session_ok s → step e s = Some s1 → aside n s s1 →
  s_workers s1 !! n = Some w1 → w_pc w1 = WExit →
  ∃ s', run [e; EvWgDone n] s = Some s' ∧ aside n s s' ∧ done_at n s'.
Proof.
  intros Hok Hst Ha Hn Hpc.
  destruct (retire_exit s1 n w1) as (s' & Hrun & Ha' & Hd);
    [by eapply session_ok_step|done|done|].
  exists s'. rewrite (run_cons _ _ _ _ Hst).
  split; [done|]. split; [by eapply aside_trans|done].
Qed.

Lemma retire_head s n w i :
  session_ok s → s_ctx s ≠ None → s_workers s !! n = Some w →
  w_pc w = WHead i →
  ∃ s', run [EvCheck n; EvWgDone n] s = Some s' ∧ aside n s s' ∧ done_at n s'.
Proof.
  intros Hok Hctx Hn Hpc. pose proof Hok as (_ & (Hp & _) & _).
  destruct (s_ctx s) as [e|] eqn:He; [|done].
  destruct (decide (i < maxAttempts)).
  - apply (retire_via_exit _ s (set_worker n (w_cancelled w) s) n (w_cancelled w));
      [done| | |by eapply lookup_set_worker|done].
    + apply Step_step; [done|]. by eapply StepCheckCancelled.
    + repeat split; try done. by eexists.
  - apply (retire_via_exit _ s (set_worker n (w_goto WExit w) s) n (w_goto WExit w));
      [done| | |by eapply lookup_set_worker|done].
    + apply Step_step; [done|]. by eapply StepExhausted.
    + repeat split; try done. by eexists.
Qed.

Lemma retire_backoff s n w i t0 :
  session_ok s → s_ctx s ≠ None → s_workers s !! n = Some w →
  w_pc w = WBackoff i t0 →
  ∃ s', run [EvCtxDone n; EvWgDone n] s = Some s' ∧ aside n s s' ∧ done_at n s'.
Proof.
  intros Hok Hctx Hn Hpc. pose proof Hok as (_ & (Hp & _) & _).
  destruct (s_ctx s) as [e|] eqn:He; [|done].
  apply (retire_via_exit _ s (set_worker n (w_cancelled w) s) n (w_cancelled w));
    [done| | |by eapply lookup_set_worker|done].
  - apply Step_step; [done|]. by eapply StepCtxDone.
  - repeat split; try done. by eexists.
Qed.

Lemma retire_send s n w i r :
  session_ok s → s_workers s !! n = Some w → w_pc w = WSend i r →
  ∃ s', run [EvSend n; EvWgDone n] s = Some s' ∧ aside n s s' ∧ done_at n s'.
Proof.
  intros Hok Hn Hpc. pose proof Hok as (_ & (Hp & _) & _).
  destruct (send_enabled s n w i r) as [Hcl Hcap]; try done.
  apply (retire_via_exit _ s
           (set_worker n (w_sends r w) (set_resCh (s_resCh s ++ [r]) s)) n
           (w_sends r w)); [done| | | |done].
  - apply Step_step; [done|]. by eapply StepSend.
  - repeat split; try done. by eexists.
  - simpl. apply list_lookup_insert_eq. by eapply lookup_lt_Some.
Qed.

Lemma retire_one s n w ans :
  session_ok s → s_ctx s ≠ None → s_workers s !! n = Some w →
  ∃ s', run (retire n w ans) s = Some s' ∧ aside n s s' ∧ done_at n s'.
Proof.
  intros Hok Hctx Hn. pose proof Hok as (_ & (Hp & _) & _). unfold retire.
  destruct (w_pc w) as [i|i t0|i r|i t0| |] eqn:Hpc.
  - by eapply retire_head.
  - destruct ans as [resp err]. simpl.
    destruct (terminal err) eqn:Hterm.
    + set (s1 := set_worker n
                   (w_returned (mkAttempt t0 (s_clock s) resp err)
                      (WSend i (mkResponse resp err "")) w) s).
      assert (step (EvReturn n resp err) s = Some s1) as Hst.
      { apply Step_step; [done|]. by eapply StepReturnTerminal. }
      destruct (retire_send s1 n
                  (w_returned (mkAttempt t0 (s_clock s) resp err)
                     (WSend i (mkResponse resp err "")) w) i
                  (mkResponse resp err "")) as (s' & Hrun & Ha & Hd);
        [by eapply session_ok_step|by eapply lookup_set_worker|done|].
      exists s'. rewrite (run_cons _ _ _ _ Hst). split; [done|].
      split; [|done]. eapply aside_trans; [|done].
      repeat split; try done. by eexists.
    + set (s1 := set_worker n
                   (w_returned (mkAttempt t0 (s_clock s) resp err)
                      (WBackoff i (s_clock s)) w) s).
      assert (step (EvReturn n resp err) s = Some s1) as Hst.
      { apply Step_step; [done|]. by eapply StepReturnRetry. }
      destruct (retire_backoff s1 n
                  (w_returned (mkAttempt t0 (s_clock s) resp err)
                     (WBackoff i (s_clock s)) w) i (s_clock s))
        as (s' & Hrun & Ha & Hd);
        [by eapply session_ok_step|done|by eapply lookup_set_worker|done|].
      exists s'. rewrite (run_cons _ _ _ _ Hst). split; [done|].
      split; [|done]. eapply aside_trans; [|done].
      repeat split; try done. by eexists.
  - by eapply retire_send.
  - by eapply retire_backoff.
  - by eapply retire_exit.
  - exists s. split; [done|]. split.
    + repeat split; try done. exists w. by rewrite list_insert_id.
    + intros w' Hw'. by simplify_eq.
Qed.

Lemma retire_from_done answers ws k s :
  session_ok s → s_ctx s ≠ None →
  (∀ j w, ws !! j = Some w → s_workers s !! (k + j) = Some w) →
  length (s_workers s) = k + length ws →
  ∃ s', run (retire_from k ws answers) s = Some s' ∧
        s_ctx s' = s_ctx s ∧ s_collector s' = s_collector s ∧
        s_clock s' = s_clock s ∧ s_janitor s' = s_janitor s ∧
        (∀ m, m < k → s_workers s' !! m = s_workers s !! m) ∧
        (∀ m w', k ≤ m → s_workers s' !! m = Some w' → w_pc w' = WDone).
Proof.
  revert k s. induction ws as [|w ws IH]; intros k s Hok Hctx Hws Hlen.
  - exists s. simpl. repeat split; try done.
    intros m w' Hm Hl. apply lookup_lt_Some in Hl. simpl in Hlen. lia.
  - cbn [retire_from].
    assert (s_workers s !! k = Some w) as Hk.
    { specialize (Hws 0 w eq_refl). by rewrite Nat.add_0_r in Hws. }
    destruct (retire_one s k w (answers k) Hok Hctx Hk)
      as (s1 & Hrun1 & (Hc1 & Hcol1 & Hclk1 & Hj1 & w1 & Hw1) & Hd1).
    destruct (IH (S k) s1) as (s' & Hrun & Hc & Hcol & Hclk & Hj & Hlow & Hhigh).
    + by eapply session_ok_run.
    + congruence.
    + intros j w' Hj. rewrite Hw1, list_lookup_insert_ne by lia.
      specialize (Hws (S j) w' Hj). by replace (S k + j) with (k + S j) by lia.
    + rewrite Hw1, length_insert. simpl in Hlen. lia.
    + exists s'. rewrite run_app, Hrun1. simpl.
      split; [done|]. repeat split; try congruence.
      * intros m Hm. rewrite Hlow by lia.
        rewrite Hw1, list_lookup_insert_ne by lia. done.
      * intros m w' Hm Hl. destruct (decide (m = k)) as [->|Hne].
        -- rewrite Hlow in Hl by lia. by apply Hd1.
        -- eapply Hhigh; [|done]. lia.
Qed.

Lemma outside_step e s s' :
  Step e s s' → outside e →
  s_janitor s' = s_janitor s ∧ s_workers s' = s_workers s ∧
  (timeless e → s_clock s' = s_clock s).
Proof. destruct 1; collect_simpl; simpl; try done. Qed.

Lemma outside_run sched s s' :
  run sched s = Some s' → Forall outside sched →
  s_janitor s' = s_janitor s ∧ s_workers s' = s_workers s ∧
  (Forall timeless sched → s_clock s' = s_clock s).
Proof.
  revert s. induction sched as [|e sched IH]; simpl; intros s Hrun Hout.
  - by simplify_eq.
  - destruct (step e s) as [s1|] eqn:He; [|done].
    apply Forall_cons in Hout as [He' Hout].
    destruct (IH s1 Hrun Hout) as (Hj & Hw & Hclk).
    apply step_Step in He as [_ He].
    destruct (outside_step _ _ _ He He') as (Hj1 & Hw1 & Hclk1).
    repeat split; try congruence.
    intros [? ?]%Forall_cons. rewrite Hclk, Hclk1; done.
Qed.

Lemma finish_outside s : Forall outside (finish s).
Proof.
  unfold finish. destruct (s_collector s); [destruct (s_ctx s)| | |];
    repeat constructor.
Qed.

Lemma finish_timeless s :
  s_ctx s ≠ None ∨ s_collector s ≠ CSelect → Forall timeless (finish s).
Proof.
  unfold finish. intros H.
  destruct (s_collector s); [destruct (s_ctx s)| | |]; repeat constructor.
  by destruct H.
Qed.

(** ** The mock hosts *)

Lemma DoQuery_static h i :
  Mock.name (Mock.DoQuery h i).2 = Mock.name h ∧
  Mock.flaky (Mock.DoQuery h i).2 = Mock.flaky h ∧
  Mock.notFound (Mock.DoQuery h i).2 = Mock.notFound h ∧
  Mock.slow (Mock.DoQuery h i).2 = Mock.slow h ∧
  (Mock.flakyCounter h ≤ Mock.flakyCounter (Mock.DoQuery h i).2
   ≤ Mock.flakyCounter h + 1)%Z.
Proof.
  destruct h as [n f nf sl c]. unfold Mock.DoQuery. simpl.
  destruct sl, i, nf, f; simpl; repeat case_match; simpl;
    repeat split; try done; lia.
Qed.

Lemma DoQuery_cases h :
  Mock.notFound h = false →
  ((Mock.DoQuery h None).1
   = (String.append "result from " (Mock.name h), None) ∧
   (Mock.flaky h = true → (3 ≤ Mock.flakyCounter h + 1)%Z)) ∨
  ((Mock.DoQuery h None).1 = ("", Mock.temporary) ∧ Mock.flaky h = true ∧
   (Mock.flakyCounter h + 1 < 3)%Z ∧
   Mock.flakyCounter (Mock.DoQuery h None).2 = (Mock.flakyCounter h + 1)%Z).
Proof.
  intros Hnf. unfold Mock.DoQuery. rewrite Hnf.
  destruct (Mock.slow h), (Mock.flaky h); simpl;
    try (left; split; [done|]; done).
  - destruct (Mock.flakyCounter h + 1 <? 3)%Z eqn:Hc; simpl.
    + right. apply Z.ltb_lt in Hc. done.
    + left. apply Z.ltb_ge in Hc. split; [done|]. intros _. lia.
  - destruct (Mock.flakyCounter h + 1 <? 3)%Z eqn:Hc; simpl.
    + right. apply Z.ltb_lt in Hc. done.
    + left. apply Z.ltb_ge in Hc. split; [done|]. intros _. lia.
Qed.


Lemma DoQuery_genuine h a :
  (a_resp a, a_err a) = (Mock.DoQuery h None).1 → from_ctx a = false.
Proof.
  unfold from_ctx, Mock.DoQuery.
  destruct (Mock.slow h), (Mock.notFound h), (Mock.flaky h); simpl;
    repeat case_match; intros; simplify_eq/=; done.
Qed.

Lemma host_after_static h0 l :
  Mock.name (host_after h0 l) = Mock.name h0 ∧
  Mock.flaky (host_after h0 l) = Mock.flaky h0 ∧
  Mock.notFound (host_after h0 l) = Mock.notFound h0 ∧
  Mock.slow (host_after h0 l) = Mock.slow h0 ∧
  (Mock.flakyCounter h0 ≤ Mock.flakyCounter (host_after h0 l)
   ≤ Mock.flakyCounter h0 + Z.of_nat (length l))%Z.
Proof.
  induction l as [|a l (Hn & Hf & Hnf & Hs & Hc)]; simpl; [repeat split; lia|].
  destruct (from_ctx a); [repeat split; try done; lia|].
  destruct (DoQuery_static (host_after h0 l) None) as (-> & -> & -> & -> & ?).
  repeat split; try done; lia.
Qed.

Lemma mock_step_step me st st' :
  mock_step me st = Some st' → ∃ e, step e st.1 = Some st'.1.
Proof.
  unfold mock_step, mock_return. intros H.
  destruct me as [n i|e].
  - repeat case_match; simplify_eq/=; by eexists.
  - exists e. destruct e; repeat case_match; by simplify_eq/=.
Qed.

Lemma mock_run_run sched st st' :
  mock_run sched st = Some st' → ∃ sched', run sched' st.1 = Some st'.1.
Proof.
  revert st. induction sched as [|me sched IH]; simpl; intros st Hrun.
  - simplify_eq. by exists [].
  - destruct (mock_step me st) as [st1|] eqn:Hme; [|done].
    destruct (mock_step_step _ _ _ Hme) as [e He].
    destruct (IH st1 Hrun) as [sched' Hrun'].
    exists (e :: sched'). by rewrite (run_cons _ _ _ _ He).
Qed.

Lemma mock_reachable_reachable query replicas hosts st :
  mock_reachable query replicas hosts st → reachable query replicas st.1.
Proof. intros [sched H]. by apply mock_run_run in H. Qed.

Lemma attempts_same e s s' n w' :
  Step e s s' → (∀ m resp err, e ≠ EvReturn m resp err) →
  s_workers s' !! n = Some w' →
  ∃ w, s_workers s !! n = Some w ∧ w_attempts w = w_attempts w'.
Proof.
  destruct 1; collect_simpl; intros Hne Hn; try (by exists w');
    try (by edestruct Hne);
    (destruct (decide (n0 = n)) as [->|Hd];
     [rewrite list_lookup_insert_eq in Hn by (by eapply lookup_lt_Some);
      simplify_eq; by exists w
     |rewrite list_lookup_insert_ne in Hn by done; by exists w']).
Qed.

Lemma interrupted_late_step e s s' a :
  step e s = Some s' → session_ok s →
  interrupted_late s a → interrupted_late s' a.
Proof.
  intros Hst Hok Hl Ha. pose proof Hst as [_ HS]%step_Step.
  pose proof (clock_mono _ _ _ HS).
  destruct (Hl Ha) as [?|[r Hr]]; [left; lia|right].
  exists r. eapply won_step; [done| |done]. apply Hok.
Qed.

Lemma mock_ok_init query replicas hosts :
  mock_ok hosts (DistributedQuery query replicas, hosts).
Proof.
  split; [done|]. intros n w Hn. simpl in Hn. rewrite list_lookup_fmap in Hn.
  destruct (replicas !! n); simplify_eq/=. by destruct (hosts !! n).
Qed.

Lemma mock_ok_step hosts me st st' :
  mock_step me st = Some st' → session_ok st.1 →
  mock_ok hosts st → mock_ok hosts st'.
Proof.
  destruct st as [s hs]. unfold mock_ok. simpl. intros Hme Hok [Hlen Hm].
  destruct me as [n i|e].
  - unfold mock_step, mock_return in Hme. simpl in Hme.
    destruct (s_workers s !! n) as [w|] eqn:Hn; [|done].
    destruct (hs !! n) as [h|] eqn:Hh; [|done].
    destruct (w_pc w) as [|j t0| | | |] eqn:Hpc; try done.
    destruct (mock_ready h i t0 s) eqn:Hready; [|done].
    destruct (step _ s) as [s1|] eqn:Hst; [|done]. simplify_eq.
    split; [simpl; by rewrite length_insert|]. simpl.
    assert (∀ a, interrupted_late s a → interrupted_late s1 a) as Hframe.
    { intros a. by eapply interrupted_late_step. }
    pose proof (Hm n w Hn) as Hmn.
    destruct (hosts !! n) as [h0|] eqn:Hh0; last first.
    { apply lookup_ge_None in Hh0. apply lookup_lt_Some in Hh. lia. }
    destruct Hmn as (Hhost & Hrep & Hlate). rewrite Hh in Hhost.
    injection Hhost as ->.
    destruct (host_after_static h0 (w_attempts w)) as (_ & _ & _ & Hslow & _).
    intros m w' Hw'.
    apply step_Step in Hst as [_ HS].
    assert (∃ pc a, s1 = set_worker n (w_returned a pc w) s ∧
              a_start a = t0 ∧ a_end a = s_clock s ∧
              (a_resp a, a_err a)
              = (Mock.DoQuery (host_after h0 (w_attempts w))
                   (if i then s_ctx s else None)).1) as (pc & a & -> & Hs0 & He0 & Hans).
    { inversion HS; simplify_eq; eexists _, _; (split; [done|]); simpl;
        (split; [congruence|]); (split; [done|]);
        by destruct (Mock.DoQuery _ _) as [[??]?]. }
    simpl in Hw'. destruct (decide (m = n)) as [->|Hne].
    + rewrite list_lookup_insert_eq in Hw' by (by eapply lookup_lt_Some).
      simplify_eq. rewrite Hh0.
      rewrite list_lookup_insert_eq by (by eapply lookup_lt_Some).
      cbn [w_attempts w_returned host_after replies_ok].
      unfold mock_ready in Hready. rewrite Hslow in Hready.
      destruct i.
      * (* through ctx.Done() *)
        destruct (Mock.slow h0) eqn:Hs; [|done].
        apply bool_decide_eq_true in Hready.
        destruct (s_ctx s) as [e|] eqn:Hctx; [|done].
        unfold Mock.DoQuery in Hans |- *. rewrite Hslow in Hans |- *.
        simpl in Hans |- *. injection Hans as Hresp Herr.
        assert (from_ctx a = true) as Hfc.
        { destruct Hok as (_ & _ & (_ & _ & Hc) & _). rewrite Hctx in Hc.
          unfold from_ctx. rewrite Herr. by destruct Hc as [[-> _]|[-> _]]. }
        rewrite Hfc. split; [done|]. split; [done|].
        constructor; [|by eapply Forall_impl].
        apply Hframe. intros _.
        eapply cancel_seen_reason; [done|done|done|congruence].
      * (* to the end *)
        pose proof (DoQuery_genuine _ _ Hans) as Hfc. rewrite Hfc.
        split; [done|]. split.
        -- split; [|done]. split; [done|]. intros Hs. rewrite Hs in Hready.
           apply bool_decide_eq_true in Hready. lia.
        -- constructor; [|by eapply Forall_impl].
           intros ?. congruence.
    + rewrite list_lookup_insert_ne in Hw' by done.
      rewrite list_lookup_insert_ne by done.
      specialize (Hm m w' Hw'). destruct (hosts !! m); [|done].
      destruct Hm as (? & ? & ?). split; [done|]. split; [done|].
      by eapply Forall_impl.
  - assert (∃ s1, step e s = Some s1 ∧ st' = (s1, hs) ∧
              ∀ m resp err, e ≠ EvReturn m resp err) as (s1 & Hst & -> & Hne).
    { unfold mock_step in Hme. simpl in Hme.
      destruct e; try done; destruct (step _ s) as [s1|] eqn:Hst;
        simplify_eq; by exists s1. }
    split; [done|]. simpl. intros m w' Hw'.
    pose proof Hst as [_ HS]%step_Step.
    destruct (attempts_same _ _ _ _ _ HS Hne Hw') as (w & Hw & Ha).
    specialize (Hm m w Hw). rewrite <- Ha. destruct (hosts !! m); [|done].
    destruct Hm as (? & ? & ?). split; [done|]. split; [done|].
    eapply Forall_impl; [done|]. intros a. by eapply interrupted_late_step.
Qed.

Lemma mock_ok_run hosts sched st st' :
  mock_run sched st = Some st' → session_ok st.1 →
  mock_ok hosts st → mock_ok hosts st'.
Proof.
  revert st. induction sched as [|me sched IH]; simpl; intros st Hrun Hok Hm.
  - by simplify_eq.
  - destruct (mock_step me st) as [st1|] eqn:Hme; [|done].
    eapply (IH st1); [done| |by eapply mock_ok_step].
    destruct (mock_step_step _ _ _ Hme) as [e He].
    by eapply session_ok_step.
Qed.

Lemma mock_reachable_ok query replicas hosts st :
  mock_reachable query replicas hosts st → mock_ok hosts st.
Proof.
  intros [sched H]. eapply mock_ok_run; [done|apply session_ok_init|].
  apply mock_ok_init.
Qed.

Lemma host_after_idle h0 l :
  Mock.flaky h0 = false ∨ Mock.notFound h0 = true → host_after h0 l = h0.
Proof.
  intros Hidle. induction l as [|a l IH]; simpl; [done|]. rewrite IH.
  destruct (from_ctx a); [done|]. unfold Mock.DoQuery.
  destruct (Mock.slow h0), (Mock.notFound h0), (Mock.flaky h0); simpl;
    try done; by destruct Hidle.
Qed.




(** * Results *)

(** C1.  Once the collector takes an error-free value [r] from the channel,
    every value taken before it having carried an error ([won s r]), the
    call returns [(Message r, nil)]: the collector is at line 107 with
    [r], or at the return statement, or has returned, and nothing else; its
    remaining steps are enabled; [cancel()] has run before the return
    statement is reached ([s_ctx] is no longer nil); the verdict never
    changes afterwards; and the payload is what a replica's last call
    returned together with a nil error. *)
Theorem first_success_wins query replicas s :
  reachable query replicas s →
  (∀ r rest,
     s_collector s = CSelect → s_resCh s = r :: rest → Err r = None →
     ∃ s1, step EvRecv s = Some s1 ∧ s_collector s1 = CSuccess r ∧ won s1 r) ∧
  (∀ r, won s r →
     (s_collector s = CSuccess r ∧
      ∃ s2, step EvCancel s = Some s2 ∧
            s_collector s2 = CExit (Message r, None) ∧ s_ctx s2 ≠ None) ∨
     (s_collector s = CExit (Message r, None) ∧ s_ctx s ≠ None ∧
      ∃ s3, step EvExit s = Some s3 ∧ returned s3 = Some (Message r, None)) ∨
     (returned s = Some (Message r, None) ∧ s_ctx s ≠ None)) ∧
  (∀ r sched s', won s r → run sched s = Some s' → won s' r) ∧
  (∀ r, won s r →
     ∃ n w a older,
       s_workers s !! n = Some w ∧ w_attempts w = a :: older ∧
       a_err a = None ∧ a_resp a = Message r).
Proof.
  intros Hreach. pose proof (reachable_ok _ _ _ Hreach) as Hok.
  pose proof Hok as (Hw & (Hpanic & _) & Hctx & Hc & Ho).
  split; [|split; [|split]].
  - intros r rest Hsel Hch Hr. eexists. split.
    + apply Step_step; [done|]. by eapply StepRecv.
    + collect_simpl. rewrite Hr. split; [done|].
      unfold won. collect_simpl. split; [done|].
      exists (s_received s). split; [done|].
      unfold collector_ok in Hc. by rewrite Hsel in Hc.
  - intros r Hwon. pose proof (won_not_waiting _ _ Hc Hwon) as Hns.
    unfold collector_ok in Hc. unfold returned.
    destruct (s_collector s) as [|r'|res|res] eqn:Hpc; [done| | |].
    + left. assert (r' = r) as ->.
      { destruct Hc as (_ & e1 & H1 & _), Hwon as (_ & e2 & H2 & _). congruence. }
      split; [done|]. eexists. split.
      * apply Step_step; [done|]. by eapply StepCancel.
      * simpl. split; [done|]. apply cancel_Some.
    + right. left. pose proof (won_decided _ _ _ Hwon Hc) as ->.
      split; [done|]. split.
      * destruct Hc as [(? & _ & _ & ?)|[(? & _)|(? & _)]]; done.
      * eexists. split; [apply Step_step; [done|by eapply StepExit]|].
        simpl. done.
    + right. right. destruct Hc as [Hd ?].
      pose proof (won_decided _ _ _ Hwon Hd) as ->. done.
  - intros r sched s' Hwon Hrun. by eapply won_run.
  - intros r Hwon. pose proof Hwon as (Hr & earlier & Hrec & _).
    destruct (received_origin s r Hok) as (n & w & Hn & Hlast & _).
    { rewrite Hrec. apply elem_of_app. right. by left. }
    destruct Hlast as (a & older & Ha & _ & ->).
    exists n, w, a, older. simpl in Hr. done.
Qed.

(** C2.  What a call returns.  (1) From every reachable state the schedule
    [finish s] makes the call return.  (2) A returned result never changes.
    (3) At the select of line 97 the step taken decides the outcome:
    the all-replicas-failed error exactly when the receive finds the channel
    closed and empty, the timed-out error exactly when the ctx.Done() branch
    is taken (and then the deadline has passed), a success exactly when the
    receive yields a value without error; any other step leaves the
    collector at the select.  (4) A result is [(Message r, nil)] for the
    value [r] that won, or the all-failed error with the channel closed and
    empty, every goroutine finished and no success taken, or the timed-out
    error with the deadline passed and no success taken.  (5) The two errors
    differ. *)
Theorem dispatch_result_kinds query replicas s :
  reachable query replicas s →
  (∃ s' res, run (finish s) s = Some s' ∧ returned s' = Some res) ∧
  (∀ res sched s',
     returned s = Some res → run sched s = Some s' → returned s' = Some res) ∧
  (∀ e s',
     s_collector s = CSelect → step e s = Some s' →
     (s_collector s' = CExit ("", Some errAllFailed) ↔
        e = EvRecv ∧ s_resCh s = [] ∧ s_closed s = true) ∧
     (s_collector s' = CExit ("", Some errTimedOut) ↔
        e = EvTimeout ∧ s_ctx s = Some context_DeadlineExceeded) ∧
     (∀ r, s_collector s' = CSuccess r ↔
        e = EvRecv ∧ Err r = None ∧ ∃ rest, s_resCh s = r :: rest) ∧
     (s_collector s' = CSelect ∨
      s_collector s' = CExit ("", Some errAllFailed) ∨
      s_collector s' = CExit ("", Some errTimedOut) ∨
      ∃ r, s_collector s' = CSuccess r)) ∧
  (∀ res,
     s_collector s = CExit res ∨ s_collector s = CReturned res →
     (∃ r, res = (Message r, None) ∧ won s r) ∨
     (res = ("", Some errAllFailed) ∧ s_closed s = true ∧ s_resCh s = [] ∧
      Forall (λ w, w_pc w = WDone) (s_workers s) ∧
      Forall failed (s_received s)) ∨
     (res = ("", Some errTimedOut) ∧
      s_ctx s = Some context_DeadlineExceeded ∧
      (totalTimeout ≤ s_clock s)%Z ∧ Forall failed (s_received s))) ∧
  errAllFailed ≠ errTimedOut.
Proof.
  intros Hreach. pose proof (reachable_ok _ _ _ Hreach) as Hok.
  pose proof Hok as (Hw & Hsync & Hctx & Hc & Ho).
  pose proof Hsync as (Hpanic & _).
  split; [|split; [|split; [|split]]].
  - by apply finish_returns.
  - intros res sched s' Hr Hrun. by eapply returned_run.
  - intros e s' Hsel [_ Hstep]%step_Step.
    destruct Hctx as (_ & _ & Hctx). rewrite Hsel in Hctx.
    destruct (select_step _ _ _ Hstep Hsel)
      as [(-> & Hch & Hcl & ->)|[(-> & [err Herr] & ->)
         |[(-> & r & rest & Hch & ->)|(? & ? & ->)]]].
    + repeat split; try done; try (by intros (? & ?)).
      * intros (_ & _ & rest & ?). congruence.
      * right. by left.
    + rewrite Herr in Hctx. destruct Hctx as [[-> _]|[_ []]].
      repeat split; try done; try (by intros (? & ?)).
      right. right. by left.
    + destruct (Err r) eqn:Hr.
      * repeat split; try done; try (by left); try (by intros (? & ?)).
        -- intros (_ & ? & _). congruence.
        -- intros (_ & ? & rest' & ?). congruence.
      * repeat split; try done; try (by intros (? & ?)).
        -- intros (_ & ? & _). congruence.
        -- congruence.
        -- simplify_eq. eauto.
        -- intros (_ & _ & rest' & ?). congruence.
        -- right. right. right. eauto.
    + repeat split; try done; try (by intros (? & ?)). by left.
  - intros res Hres. unfold collector_ok in Hc.
    assert (decided s res) as Hd.
    { destruct Hres as [Hres|Hres]; rewrite Hres in Hc; [done|by destruct Hc]. }
    destruct Hd as [(r & ? & ? & ?)|[(? & ? & ? & ?)|(? & Hx & ?)]].
    + left. eauto.
    + right. left. repeat split; try done. by apply closed_all_done.
    + right. right. repeat split; try done.
      destruct Hctx as (_ & _ & Hctx). rewrite Hx in Hctx.
      destruct Hctx as [[_ ?]|[? _]]; done.
  - done.
Qed.

(** C3.  For the goroutine of any replica, in any reachable state: the
    bound is 3 and the delay 500ms; it has started at most [maxAttempts]
    calls; between the return of one call and the start of the next lie at
    least [retryInterval] nanoseconds, for finished calls and for the call in
    flight; while it waits, the timer branch can be taken exactly once
    [retryInterval] has passed since the failed call returned; and once three
    calls have all failed with errors other than not-found, it has sent
    nothing, the schedule [wind_down] takes it to its end with nothing sent
    and the channel untouched, and on no continuation does it send or call
    again. *)
Theorem worker_retry_bound query replicas s n w :
  reachable query replicas s → s_workers s !! n = Some w →
  maxAttempts = 3 ∧ retryInterval = 500000000%Z ∧
  started w ≤ maxAttempts ∧
  (∀ k a b,
     w_attempts w !! S k = Some a → w_attempts w !! k = Some b →
     (a_end a + retryInterval ≤ a_start b)%Z) ∧
  (∀ i t0 a older,
     w_pc w = WCall i t0 → w_attempts w = a :: older →
     (a_end a + retryInterval ≤ t0)%Z) ∧
  (∀ i t0,
     w_pc w = WBackoff i t0 →
     (∃ a older, w_attempts w = a :: older ∧ a_end a = t0) ∧
     (is_Some (step (EvTimer n) s) ↔ (t0 + retryInterval ≤ s_clock s)%Z)) ∧
  (exhausted w →
     w_sent w = [] ∧
     (∃ s' w',
        run (wind_down n w s) s = Some s' ∧ s_workers s' !! n = Some w' ∧
        w_pc w' = WDone ∧ w_sent w' = [] ∧ w_attempts w' = w_attempts w ∧
        s_resCh s' = s_resCh s) ∧
     (∀ sched s' w',
        run sched s = Some s' → s_workers s' !! n = Some w' →
        w_sent w' = [] ∧ w_attempts w' = w_attempts w ∧
        ∀ i t0, w_pc w' ≠ WCall i t0)).
Proof.
  intros Hreach Hn. pose proof (reachable_ok _ _ _ Hreach) as Hok.
  pose proof Hok as (Hw & Hsync & _). pose proof Hsync as (Hpanic & _).
  pose proof (Forall_lookup_1 _ _ _ _ Hw Hn) as Hwok.
  pose proof Hwok as (Hlen & Hold & Hsp & Htimes & Hpc).
  split; [done|]. split; [done|]. split; [|split; [|split; [|split]]].
  - unfold started. destruct (w_pc w); lia.
  - intros k a b Ha Hb. by eapply spaced_lookup.
  - intros i t0 a older Hcall Ha. rewrite Hcall in Hpc.
    destruct Hpc as (_ & _ & _ & Hr & _). by rewrite Ha in Hr.
  - intros i t0 Hb. rewrite Hb in Hpc. destruct Hpc as (_ & _ & Hlast & _).
    split; [done|]. unfold step, on_worker, worker_step.
    rewrite Hpanic, Hn, Hb. case_decide; split; try done.
  - intros Hex. destruct (exhausted_quiet _ _ Hwok Hex) as [Hs Hcase].
    split; [done|]. split.
    + destruct (w_pc w) as [i|i t0|i r|i t0| |] eqn:Hpcw; try done.
      * destruct (wind_down_head s n w i) as (s' & w' & ? & ? & ? & (? & ? & ?) & ?);
          try done.
        exists s', w'. unfold wind_down. rewrite Hpcw.
        repeat split; try done; congruence.
      * destruct (wind_down_backoff s n w i t0)
          as (s' & w' & ? & ? & ? & (? & ? & ?) & ?); try done.
        exists s', w'. repeat split; try done; congruence.
      * destruct (wind_down_exit s n w) as (s' & w' & ? & ? & ? & (? & ? & ?) & ?);
          try done.
        exists s', w'. unfold wind_down. rewrite Hpcw.
        repeat split; try done; congruence.
      * exists s, w. unfold wind_down. rewrite Hpcw. simpl. done.
    + intros sched s' w' Hrun Hn'.
      destruct (attempts_run _ _ _ _ _ Hrun Hn) as (w2 & Hn2 & Hsuf).
      assert (w2 = w') as -> by congruence.
      pose proof (session_ok_run _ _ _ Hrun Hok) as (Hw' & _).
      pose proof (Forall_lookup_1 _ _ _ _ Hw' Hn') as Hwok'.
      assert (w_attempts w' = w_attempts w) as Heq.
      { symmetry. apply suffix_length_eq; [done|].
        destruct Hwok' as (? & _). destruct Hex as [-> _]. done. }
      assert (exhausted w') as Hex'.
      { unfold exhausted. rewrite Heq. done. }
      destruct (exhausted_quiet _ _ Hwok' Hex') as [Hs' Hcase'].
      split; [done|]. split; [done|]. intros i t0 Hcall.
      by rewrite Hcall in Hcase'.
Qed.

(** C4.  For the goroutine of any replica, in any reachable state.
    (1) When its call returns [(resp, err)]: if [err] is nil or matches
    [ErrNotFound] it is about to send [Response{resp, err}] and has sent
    nothing yet; otherwise it enters the wait of line 76, nothing is sent and
    the channel is unchanged.  (2) The pending send is always enabled (the
    channel is open and not full) and puts exactly that value at the end of
    the channel, after which the goroutine is returning.  (3) It has sent at
    most one value, and only after leaving the loop.  (4) Once it has left the
    loop it calls and sends no more, on any continuation.  (5) From the wait,
    the timer leads to the loop head with the counter increased, and (6) from
    the loop head, below the bound and without cancellation, the next call
    starts. *)
Theorem worker_terminal_or_retry query replicas s n w :
  reachable query replicas s → s_workers s !! n = Some w →
  (∀ i t0 resp err,
     w_pc w = WCall i t0 →
     ∃ s1 w1,
       step (EvReturn n resp err) s = Some s1 ∧ s_workers s1 !! n = Some w1 ∧
       w_sent w1 = [] ∧ s_resCh s1 = s_resCh s ∧
       w_attempts w1 = mkAttempt t0 (s_clock s) resp err :: w_attempts w ∧
       w_pc w1 =
         match err with
         | None => WSend i (mkResponse resp None "")
         | Some e =>
             if errors_Is e ErrNotFound
             then WSend i (mkResponse resp (Some e) "")
             else WBackoff i (s_clock s)
         end) ∧
  (∀ i r,
     w_pc w = WSend i r →
     ∃ s2 w2,
       step (EvSend n) s = Some s2 ∧ s_workers s2 !! n = Some w2 ∧
       w_pc w2 = WExit ∧ w_sent w2 = [r] ∧ s_resCh s2 = s_resCh s ++ [r] ∧
       w_attempts w2 = w_attempts w ∧ s_panic s2 = false) ∧
  length (w_sent w) ≤ 1 ∧
  (w_sent w ≠ [] → gone w) ∧
  (gone w →
   ∀ sched s' w',
     run sched s = Some s' → s_workers s' !! n = Some w' →
     gone w' ∧ w_attempts w' = w_attempts w ∧ w_sent w' = w_sent w) ∧
  (∀ i t0,
     w_pc w = WBackoff i t0 → (t0 + retryInterval ≤ s_clock s)%Z →
     ∃ s1 w1,
       step (EvTimer n) s = Some s1 ∧ s_workers s1 !! n = Some w1 ∧
       w_pc w1 = WHead (S i) ∧ w_sent w1 = [] ∧ s_resCh s1 = s_resCh s) ∧
  (∀ i,
     w_pc w = WHead i → i < maxAttempts → s_ctx s = None →
     ∃ s1 w1,
       step (EvCheck n) s = Some s1 ∧ s_workers s1 !! n = Some w1 ∧
       w_pc w1 = WCall i (s_clock s)).
Proof.
  intros Hreach Hn. pose proof (reachable_ok _ _ _ Hreach) as Hok.
  pose proof Hok as (Hw & Hsync & _). pose proof Hsync as (Hpanic & _).
  pose proof (Forall_lookup_1 _ _ _ _ Hw Hn) as Hwok.
  pose proof Hwok as (_ & _ & _ & _ & Hpc).
  split; [|split; [|split; [|split; [|split; [|split]]]]].
  - intros i t0 resp err Hcall. rewrite Hcall in Hpc.
    destruct Hpc as (_ & _ & _ & _ & _ & Hq & _).
    destruct (terminal err) eqn:Hterm.
    + eexists _, _. split; [apply Step_step; [done|by eapply StepReturnTerminal]|].
      split; [by eapply lookup_set_worker|]. simpl.
      repeat split; try done. destruct err as [e|]; [|done].
      simpl in Hterm. by rewrite Hterm.
    + eexists _, _. split; [apply Step_step; [done|by eapply StepReturnRetry]|].
      split; [by eapply lookup_set_worker|]. simpl.
      repeat split; try done. destruct err as [e|]; [|done].
      simpl in Hterm. by rewrite Hterm.
  - intros i r Hsend. destruct (send_enabled s n w i r) as [Hcl Hcap]; try done.
    rewrite Hsend in Hpc. destruct Hpc as (_ & _ & Hq & _).
    eexists _, _. split; [apply Step_step; [done|by eapply StepSend]|].
    split; [by eapply (lookup_set_worker (set_resCh _ s))|]. simpl.
    rewrite Hq. done.
  - by apply (sent_at_most_one _ _ Hwok).
  - by apply (sent_at_most_one _ _ Hwok).
  - intros Hg sched s' w' Hrun Hn'.
    destruct (gone_run _ _ _ _ _ Hrun Hn Hg) as (w2 & Hn2 & ? & ? & ? & _).
    assert (w2 = w') as -> by congruence. done.
  - intros i t0 Hb Ht. rewrite Hb in Hpc. destruct Hpc as (_ & _ & _ & Hq & _).
    eexists _, _. split; [apply Step_step; [done|by eapply StepTimer]|].
    split; [by eapply lookup_set_worker|]. done.
  - intros i Hh Hi Hctx.
    eexists _, _. split; [apply Step_step; [done|by eapply StepCall]|].
    split; [by eapply lookup_set_worker|]. done.
Qed.

(** C5.  When the collector, waiting at the select, takes a not-found reply
    [r] from the channel: it stays at the select with no result, [r] is
    dropped from the channel, and neither the goroutines nor the context nor
    the channel's closed flag are touched; the goroutine that sent [r] has
    left its loop and never calls its replica again; and whenever later an
    error-free value is at the head of the channel while the collector is
    still at the select, taking it makes the call return that value's
    message with a nil error. *)
Theorem not_found_discarded query replicas s r rest e :
  reachable query replicas s → s_collector s = CSelect →
  s_resCh s = r :: rest → Err r = Some e → errors_Is e ErrNotFound = true →
  ∃ s1,
    step EvRecv s = Some s1 ∧
    s_collector s1 = CSelect ∧ returned s1 = None ∧ s_resCh s1 = rest ∧
    s_received s1 = r :: s_received s ∧ s_workers s1 = s_workers s ∧
    s_ctx s1 = s_ctx s ∧ s_closed s1 = s_closed s ∧
    (∃ n w,
       s_workers s !! n = Some w ∧ w_sent w = [r] ∧ gone w ∧
       ∀ sched s' w',
         run sched s = Some s' → s_workers s' !! n = Some w' →
         gone w' ∧ w_attempts w' = w_attempts w) ∧
    (∀ sched s2 r' rest',
       run sched s1 = Some s2 → s_collector s2 = CSelect →
       s_resCh s2 = r' :: rest' → Err r' = None →
       ∃ s3, run [EvRecv; EvCancel; EvExit] s2 = Some s3 ∧
             returned s3 = Some (Message r', None)).
Proof.
  intros Hreach Hsel Hch Hr Hnf.
  pose proof (reachable_ok _ _ _ Hreach) as Hok.
  pose proof Hok as (_ & (Hpanic & _) & _).
  assert (step EvRecv s = Some (collect r (took r (set_resCh rest s)))) as Hst.
  { apply Step_step; [done|by eapply StepRecv]. }
  eexists. split; [exact Hst|]. unfold returned. collect_simpl. rewrite Hr.
  do 7 (split; [done|]). split.
  - destruct (received_origin s r Hok) as (n & w & Hn & _ & Hs & Hg & _).
    { rewrite Hch. apply elem_of_app. left. by left. }
    exists n, w. do 3 (split; [done|]). intros sched s' w' Hrun Hn'.
    destruct (gone_run _ _ _ _ _ Hrun Hn Hg) as (w2 & Hn2 & ? & ? & _).
    by simplify_eq.
  - intros sched s2 r' rest' Hrun Hsel2 Hch2 Hr'.
    eapply success_returns; try done.
    assert (reachable query replicas s2) as Hreach2.
    { eapply reachable_run; [|exact Hrun]. eapply reachable_run; [done|].
      by rewrite (run_cons _ [] _ _ Hst). }
    apply reachable_ok in Hreach2 as (_ & (? & _) & _). done.
Qed.

(** C6.  A call with no replicas.  No goroutine is spawned, and none ever
    exists, so no replica is ever called and nothing is ever sent.  On the
    schedule where the closing goroutine runs and the collector then
    receives, the call returns the all-replicas-failed error with the clock
    still at zero.  As long as less than [totalTimeout] has passed, the
    timer of the context cannot fire and the collector cannot take the
    ctx.Done() branch; whenever the collector is still waiting, the closing
    goroutine and the collector can finish at once, without time passing,
    and the result is the all-replicas-failed error.  Whatever the schedule,
    the result is that error, unless [totalTimeout] passed first; and on
    every eager schedule the call returns with the clock still at zero and
    the result is that error. *)
Theorem empty_replicas_all_failed query :
  s_workers (DistributedQuery query []) = [] ∧
  (∃ s',
     run [EvWait; EvClose; EvRecv; EvExit] (DistributedQuery query []) = Some s' ∧
     returned s' = Some ("", Some errAllFailed) ∧ s_clock s' = 0%Z) ∧
  (∀ sched s,
     run sched (DistributedQuery query []) = Some s →
     s_workers s = [] ∧ s_resCh s = [] ∧ s_received s = [] ∧
     (∀ n resp err,
        step (EvCheck n) s = None ∧ step (EvReturn n resp err) s = None ∧
        step (EvSend n) s = None) ∧
     ((s_clock s < totalTimeout)%Z →
      step EvDeadline s = None ∧ step EvTimeout s = None) ∧
     (s_collector s = CSelect →
      ∃ s',
        run (close_up s ++ [EvRecv; EvExit]) s = Some s' ∧
        returned s' = Some ("", Some errAllFailed) ∧ s_clock s' = s_clock s) ∧
     (∀ res,
        s_collector s = CExit res ∨ s_collector s = CReturned res →
        res = ("", Some errAllFailed) ∨
        (res = ("", Some errTimedOut) ∧ (totalTimeout ≤ s_clock s)%Z))) ∧
  (∀ sched s,
     eager sched (DistributedQuery query []) →
     run sched (DistributedQuery query []) = Some s →
     (returned s = None → s_clock s = 0%Z) ∧
     (∀ res,
        s_collector s = CExit res ∨ s_collector s = CReturned res →
        res = ("", Some errAllFailed))).
Proof.
  split; [done|]. split.
  { eexists. split; [vm_compute; reflexivity|]. done. }
  split.
  - intros sched s Hrun.
    assert (reachable query [] s) as Hreach by by exists sched.
    pose proof (reachable_ok _ _ _ Hreach) as Hok.
    pose proof Hok as (_ & Hsync & Hctx & _).
    pose proof Hsync as (Hpanic & _).
    pose proof (no_workers_run _ _ _ Hrun eq_refl) as Hnil.
    destruct (no_workers_quiet s Hsync Hnil) as (_ & Hres & Hrec).
    split; [done|]. split; [done|]. split; [done|].
    split; [|split; [|split]].
    + intros n resp err. unfold step, on_worker. rewrite Hpanic, Hnil. done.
    + intros Hlt. destruct Hctx as (Hd & _ & Hc). unfold step. rewrite Hpanic.
      split.
      * destruct (s_ctx s); [done|]. case_decide; [lia|done].
      * unfold collector_step. destruct (s_collector s) eqn:Hsel; try done.
        by rewrite (before_deadline s Hok Hlt Hsel).
    + intros Hsel.
      destruct (close_up_closes s Hsync)
        as (s1 & Hrun1 & Hcl & Hc1 & Hch1 & Hp1 & Hclock).
      { rewrite Hnil. constructor. }
      eexists. rewrite run_app, Hrun1.
      erewrite run_cons;
        [|apply Step_step; [done|apply StepRecvClosed; congruence]].
      erewrite run_cons; [|apply Step_step; [done|by eapply StepExit]].
      simpl. done.
    + intros res Hres'. by apply result_unless_won.
  - intros sched s He Hrun.
    assert (reachable query [] s) as Hreach by by exists sched.
    pose proof (reachable_ok _ _ _ Hreach) as Hok.
    pose proof Hok as (_ & Hsync & _).
    pose proof (no_workers_run _ _ _ Hrun eq_refl) as Hnil.
    destruct (no_workers_quiet s Hsync Hnil) as (_ & _ & Hrec).
    destruct (eager_empty sched _ s (session_ok_init query []) eq_refl He Hrun)
      as [Hzero Hres].
    { split; [done|]. intros res Hc. simpl in Hc. done. }
    split; [done|]. intros res [Hc|Hc]; [|by apply Hres].
    eapply all_failed_at_zero; [done|done| |by left].
    apply Hzero. unfold returned. by rewrite Hc.
Qed.

(** C7, as the program has it.  [DistributedQuery] takes the query and the
    replicas only; it behaves as the entry point of spec.md called with the
    constant [totalTimeout], which is two seconds.  In every reachable state
    the deadline is that constant: the timer of the context fires only
    once two seconds have passed, a timed-out result is only returned
    after that, and once two seconds have passed the call can return
    without any more time passing.  On every eager schedule the call has
    returned by the time the clock passes two seconds. *)
Theorem timeout_is_the_constant query replicas :
  DistributedQuery query replicas = dispatch_spec query replicas totalTimeout ∧
  totalTimeout = 2000000000%Z ∧
  (∀ s,
     reachable query replicas s →
     s_deadline s = totalTimeout ∧
     (is_Some (step EvDeadline s) ↔
        s_ctx s = None ∧ (totalTimeout ≤ s_clock s)%Z) ∧
     (∀ res,
        s_collector s = CExit res ∨ s_collector s = CReturned res →
        res = ("", Some errTimedOut) → (totalTimeout ≤ s_clock s)%Z) ∧
     ((totalTimeout ≤ s_clock s)%Z →
      ∃ s' res,
        run (finish s) s = Some s' ∧ returned s' = Some res ∧
        s_clock s' = s_clock s)) ∧
  (∀ sched s,
     eager sched (DistributedQuery query replicas) →
     run sched (DistributedQuery query replicas) = Some s →
     returned s = None → (s_clock s ≤ totalTimeout)%Z).
Proof.
  split; [done|]. split; [done|]. split.
  - intros s Hreach.
    pose proof (reachable_ok _ _ _ Hreach) as Hok.
    pose proof Hok as (_ & (Hpanic & _) & (Hd & Hclk & Hctx) & Hc & _).
    split; [done|]. split; [|split].
    + unfold step. rewrite Hpanic, Hd. destruct (s_ctx s); [|case_decide].
      * split; [by intros [? ?]|by intros [? _]].
      * split; [done|]. intros _. by eexists.
      * split; [by intros [? ?]|]. intros [_ ?]. lia.
    + intros res Hres ->. unfold collector_ok in Hc.
      assert (decided s ("", Some errTimedOut)) as Hdec.
      { destruct Hres as [Hres|Hres]; rewrite Hres in Hc; [done|by destruct Hc]. }
      destruct Hdec as [(r & ? & _)|[(? & _)|(_ & Hx & _)]]; [done|done|].
      rewrite Hx in Hctx. destruct Hctx as [[_ ?]|[? _]]; done.
    + intros Hlate.
      destruct (finish_returns s Hpanic) as (s' & res & Hrun & Hret).
      exists s', res. split; [done|]. split; [done|].
      unfold finish in Hrun.
      destruct (s_collector s); [destruct (s_ctx s)| | |]; simpl in Hrun;
        unfold step, collector_step, collect in Hrun; simpl in Hrun;
        repeat (case_match; simplify_eq/=); try done.
      rewrite Hd. lia.
  - intros sched s He Hrun. eapply eager_bound; try done.
    apply session_ok_init.
Qed.

(** C8.  For the goroutine of any replica, in any reachable state.
    (1) At the loop head, below the bound and with the context cancelled,
    the check of line 61 makes it return: nothing is called, nothing is
    sent.  (2) During the wait of line 76, with the context cancelled, the
    ctx.Done() branch makes it return likewise, and (3) that branch can only
    be taken when the context is cancelled.  (4) A goroutine that left
    through one of these two exits has sent nothing, has left its loop, and
    on every continuation sends nothing and calls nothing.  (5) Once the
    context is cancelled the number of calls started by the goroutine never
    changes again, whichever branch its select takes. *)
Theorem worker_stops_on_cancel query replicas s n w :
  reachable query replicas s → s_workers s !! n = Some w →
  (∀ i e,
     w_pc w = WHead i → i < maxAttempts → s_ctx s = Some e →
     ∃ s1 w1,
       step (EvCheck n) s = Some s1 ∧ s_workers s1 !! n = Some w1 ∧
       w_pc w1 = WExit ∧ w_seen w1 = true ∧ w_sent w1 = [] ∧
       w_attempts w1 = w_attempts w ∧ s_resCh s1 = s_resCh s) ∧
  (∀ i t0 e,
     w_pc w = WBackoff i t0 → s_ctx s = Some e →
     ∃ s1 w1,
       step (EvCtxDone n) s = Some s1 ∧ s_workers s1 !! n = Some w1 ∧
       w_pc w1 = WExit ∧ w_seen w1 = true ∧ w_sent w1 = [] ∧
       w_attempts w1 = w_attempts w ∧ s_resCh s1 = s_resCh s) ∧
  (is_Some (step (EvCtxDone n) s) → s_ctx s ≠ None) ∧
  (w_seen w = true →
   w_sent w = [] ∧ gone w ∧
   ∀ sched s' w',
     run sched s = Some s' → s_workers s' !! n = Some w' →
     w_sent w' = [] ∧ w_attempts w' = w_attempts w ∧ gone w') ∧
  (s_ctx s ≠ None →
   ∀ sched s' w',
     run sched s = Some s' → s_workers s' !! n = Some w' →
     started w' = started w).
Proof.
  intros Hreach Hn. pose proof (reachable_ok _ _ _ Hreach) as Hok.
  pose proof Hok as (Hw & Hsync & _). pose proof Hsync as (Hpanic & _).
  pose proof (Forall_lookup_1 _ _ _ _ Hw Hn) as Hwok.
  pose proof Hwok as (_ & _ & _ & _ & Hpc).
  split; [|split; [|split; [|split]]].
  - intros i e Hh Hi Hctx. rewrite Hh in Hpc. destruct Hpc as (_ & _ & _ & Hq & _).
    eexists _, _. split; [apply Step_step; [done|by eapply StepCheckCancelled]|].
    split; [by eapply lookup_set_worker|]. done.
  - intros i t0 e Hb Hctx. rewrite Hb in Hpc. destruct Hpc as (_ & _ & _ & Hq & _).
    eexists _, _. split; [apply Step_step; [done|by eapply StepCtxDone]|].
    split; [by eapply lookup_set_worker|]. done.
  - intros [s1 [_ Hst]%step_Step]. inversion Hst; subst. congruence.
  - intros Hseen. destruct (seen_gone _ _ Hwok Hseen) as [Hs Hg].
    split; [done|]. split; [done|]. intros sched s' w' Hrun Hn'.
    destruct (gone_run _ _ _ _ _ Hrun Hn Hg) as (w2 & Hn2 & ? & ? & ? & _).
    assert (w2 = w') as -> by congruence. repeat split; try done. congruence.
  - intros Hctx sched s' w' Hrun Hn'.
    destruct (started_run _ _ _ _ _ Hrun Hctx Hn) as (w2 & Hn2 & ?).
    congruence.
Qed.

(** C9.  An error whose [Unwrap] chain contains [ErrNotFound] satisfies
    [errors.Is(err, ErrNotFound)]; there are such errors other than the
    sentinel itself, while a fresh error with the same text is not one.  A
    call returning such an error makes the goroutine send
    [Response{resp, err}] just as the sentinel would, and the collector,
    on receiving it, prints the Result line and stays at the select just as
    for the sentinel. *)
Theorem not_found_by_chain (err : error) :
  ErrNotFound ∈ unwrap_chain err →
  errors_Is err ErrNotFound = true ∧
  terminal (Some err) = terminal (Some ErrNotFound) ∧
  (∃ wrapped, wrapped ≠ ErrNotFound ∧ errors_Is wrapped ErrNotFound = true) ∧
  errors_Is (errors_New "not found") ErrNotFound = false ∧
  (∀ query replicas s n w i t0 resp,
     reachable query replicas s → s_workers s !! n = Some w →
     w_pc w = WCall i t0 →
     ∀ e, e = err ∨ e = ErrNotFound →
     ∃ s1 w1,
       step (EvReturn n resp (Some e)) s = Some s1 ∧
       s_workers s1 !! n = Some w1 ∧
       w_pc w1 = WSend i (mkResponse resp (Some e) "")) ∧
  (∀ query replicas s r rest,
     reachable query replicas s → s_collector s = CSelect →
     s_resCh s = r :: rest →
     ∀ e, e = err ∨ e = ErrNotFound → Err r = Some e →
     ∃ s1,
       step EvRecv s = Some s1 ∧ s_collector s1 = CSelect ∧
       s_resCh s1 = rest ∧ s_stdout s1 = s_stdout s ++ [ResultFrom (Host r) e] ∧
       s_workers s1 = s_workers s ∧ s_ctx s1 = s_ctx s).
Proof.
  intros Hchain. apply errors_Is_chain in Hchain as His.
  split; [done|]. split; [simpl; by rewrite His|]. split; [|split; [done|split]].
  - exists (fmt_Errorf_w "replica down: not found" ErrNotFound). done.
  - intros query replicas s n w i t0 resp Hreach Hn Hcall e He.
    pose proof (reachable_ok _ _ _ Hreach) as (_ & (Hpanic & _) & _).
    assert (terminal (Some e) = true) as Hterm by (by destruct He as [->| ->]).
    eexists _, _. split; [apply Step_step; [done|by eapply StepReturnTerminal]|].
    split; [by eapply lookup_set_worker|]. done.
  - intros query replicas s r rest Hreach Hsel Hch e He Hr.
    pose proof (reachable_ok _ _ _ Hreach) as (_ & (Hpanic & _) & _).
    assert (errors_Is e ErrNotFound = true) as Hterm by (by destruct He as [->| ->]).
    eexists. split; [apply Step_step; [done|by eapply StepRecv]|].
    unfold collect. rewrite Hr, Hterm. done.
Qed.

(** C10.  In every reachable state: (1) no goroutine has panicked (no send
    on the closed channel, no negative wait group counter, no double close);
    (2) the wait group counter is the number of replica goroutines that have
    not finished; (3) a goroutine has called [wg.Done()] once if it has
    finished and never otherwise, it leaves its loop only into the state
    where the deferred [wg.Done()] is pending, and there that call is
    enabled, lowers the counter by one and finishes the goroutine;
    (4) [wg.Wait()] returns only when every goroutine has finished, and the
    channel is closed only then; (5) once every goroutine has finished, a
    collector still waiting at the select gets, on the schedule
    [close_up s ++ drain (s_resCh s)], either a successful value or the
    closed channel, and so leaves the select. *)
Theorem wait_group_closes_channel query replicas s :
  reachable query replicas s →
  s_panic s = false ∧
  s_wg s = Z.of_nat (sum_list_with pending (s_workers s)) ∧
  (∀ n w,
     s_workers s !! n = Some w →
     w_done w + pending w = 1 ∧
     (w_pc w = WExit →
      ∃ s1 w1,
        step (EvWgDone n) s = Some s1 ∧ s_workers s1 !! n = Some w1 ∧
        w_pc w1 = WDone ∧ w_done w1 = 1 ∧ s_wg s1 = (s_wg s - 1)%Z) ∧
     (∀ e s1 w1,
        step e s = Some s1 → s_workers s1 !! n = Some w1 →
        (gone w1 → ¬ gone w → w_pc w1 = WExit) ∧
        (w_pc w1 = WDone → w_pc w = WDone ∨ (w_pc w = WExit ∧ e = EvWgDone n)) ∧
        (w_done w1 = w_done w ∨ (e = EvWgDone n ∧ w_done w1 = S (w_done w))))) ∧
  (is_Some (step EvWait s) → Forall (λ w, w_pc w = WDone) (s_workers s)) ∧
  (s_janitor s ≠ JWait → Forall (λ w, w_pc w = WDone) (s_workers s)) ∧
  (s_closed s = true →
   s_janitor s = JDone ∧ Forall (λ w, w_pc w = WDone) (s_workers s)) ∧
  (Forall (λ w, w_pc w = WDone) (s_workers s) → s_collector s = CSelect →
   ∃ s',
     run (close_up s ++ drain (s_resCh s)) s = Some s' ∧ s_closed s' = true ∧
     (s_collector s' = CExit ("", Some errAllFailed) ∨
      ∃ r, r ∈ s_resCh s ∧ Err r = None ∧ s_collector s' = CSuccess r)).
Proof.
  intros Hreach. pose proof (reachable_ok _ _ _ Hreach) as Hok.
  pose proof Hok as (Hw & Hsync & _).
  pose proof Hsync as (Hpanic & Hwg & _ & _ & Hj).
  split; [done|]. split; [done|]. split; [|split; [|split; [|split]]].
  - intros n w Hn. pose proof (Forall_lookup_1 _ _ _ _ Hw Hn) as Hwok.
    destruct Hwok as (_ & _ & _ & _ & Hpc). split; [|split].
    + unfold quiet, pending in *. destruct (w_pc w); intuition lia.
    + intros Hexit. eexists _, _. split; [by apply exit_done|].
      split; [by eapply (lookup_set_worker (set_wg _ s))|]. simpl.
      rewrite Hexit in Hpc. destruct Hpc as [_ ->]. done.
    + intros e s1 w1 [_ Hst]%step_Step Hn1. by eapply lands_on_exit.
  - intros [s1 [_ Hst]%step_Step]. inversion Hst; subst.
    by apply drained_all_done.
  - intros Hjan. apply drained_all_done; [done|].
    destruct (s_janitor s); [done|by destruct Hj|by destruct Hj].
  - intros Hcl. split; [|by apply closed_all_done].
    destruct (s_janitor s); [congruence|destruct Hj; congruence|done].
  - intros Hall Hsel.
    destruct (close_up_closes s Hsync Hall)
      as (s1 & Hrun1 & Hcl & Hc1 & Hch & Hp1 & _).
    destruct (drain_decides (s_resCh s) s1) as (s' & Hrun2 & ? & ?);
      try done; try congruence.
    exists s'. rewrite run_app, Hrun1. done.
Qed.

(** * Further results *)

(** X1.  Cancellation has a cause.  In every reachable state: a goroutine
    has left through one of its two cancellation exits (lines 62 and 82) only
    if the two seconds have passed or the collector has taken a successful
    value; the context's error is the deadline error only once the two
    seconds have passed, and the cancellation error only once the collector
    has reached a return statement; so while the collector waits at its
    select before the deadline, the context is live and no goroutine has
    seen a cancellation. *)
Theorem cancellation_has_a_cause query replicas s :
  reachable query replicas s →
  (∀ n w,
     s_workers s !! n = Some w → w_seen w = true →
     (totalTimeout ≤ s_clock s)%Z ∨ ∃ r, won s r) ∧
  (∀ e,
     s_ctx s = Some e →
     (e = context_DeadlineExceeded ∧ (totalTimeout ≤ s_clock s)%Z) ∨
     (e = context_Canceled ∧ exiting (s_collector s))) ∧
  ((s_clock s < totalTimeout)%Z → s_collector s = CSelect →
   s_ctx s = None ∧ Forall (λ w, w_seen w = false) (s_workers s)).
Proof.
  intros Hreach. pose proof (reachable_ok _ _ _ Hreach) as Hok.
  pose proof (reachable_more _ _ _ Hreach) as [_ Ht].
  pose proof Hok as (_ & _ & (_ & _ & Hctx) & Hc & _).
  assert (∀ n w, s_workers s !! n = Some w → w_seen w = true →
            (totalTimeout ≤ s_clock s)%Z ∨ ∃ r, won s r) as Hseen.
  { intros n w Hn Hs.
    pose proof (Forall_lookup_1 _ _ _ _ Ht Hn) as (_ & _ & H & _). auto. }
  split; [done|]. split.
  - intros e He. by rewrite He in Hctx.
  - intros Hlt Hsel. split.
    + destruct (s_ctx s) as [e|]; [|done].
      destruct Hctx as [[_ ?]|[_ Hex]]; [lia|]. by rewrite Hsel in Hex.
    + apply Forall_lookup_2. intros n w Hn.
      destruct (w_seen w) eqn:Hs; [|done].
      destruct (Hseen n w Hn Hs) as [?|[r Hr]]; [lia|].
      by destruct (won_not_waiting _ _ Hc Hr).
Qed.

(** X2.  The [Host] field is never set.  Every value that goes through the
    channel was built at line 69: its [Host] is the empty string and its
    error is nil or a not-found; so every line the collector prints
    (lines 107 and 116) names an empty host. *)
Theorem host_field_never_set query replicas s :
  reachable query replicas s →
  (∀ r, r ∈ s_resCh s ++ s_received s →
        Host r = "" ∧ terminal (Err r) = true) ∧
  (∀ l, l ∈ s_stdout s → line_host l = "").
Proof.
  intros Hreach. pose proof (reachable_ok _ _ _ Hreach) as Hok.
  pose proof (reachable_more _ _ _ Hreach) as [Ho _].
  split; [intros r Hr; by apply (taken_shape s)|].
  intros l Hl. rewrite Ho in Hl.
  apply list_elem_of_omap in Hl as (r & Hr & Hline).
  rewrite (line_of_host _ _ Hline).
  apply (taken_shape s r Hok). apply elem_of_app. right.
  by apply elem_of_reverse.
Qed.

(** X3.  What is printed.  The lines printed so far are the lines of the
    values taken from the channel, in the order taken: one line for each
    value; and a success line (line 107) can only be the last line, printed
    for the value that won. *)
Theorem stdout_follows_received query replicas s :
  reachable query replicas s →
  s_stdout s = omap line_of (reverse (s_received s)) ∧
  length (s_stdout s) = length (s_received s) ∧
  (∀ k host msg,
     s_stdout s !! k = Some (SuccessFrom host msg) →
     S k = length (s_stdout s) ∧ ∃ r, won s r ∧ Message r = msg).
Proof.
  intros Hreach. pose proof (reachable_ok _ _ _ Hreach) as Hok.
  pose proof (reachable_more _ _ _ Hreach) as [Ho _].
  pose proof Hok as (_ & _ & _ & Hc & _).
  split; [done|]. split.
  - rewrite Ho, omap_length_total, length_reverse; [done|].
    apply Forall_forall. intros r Hr. apply line_of_terminal.
    apply (taken_shape s r Hok). apply elem_of_app. right.
    by apply elem_of_reverse.
  - intros k host msg Hk.
    destruct (won_or_failed _ Hc) as [[r Hr]|Hf].
    + pose proof Hr as (Herr & earlier & Hrec & Hfe).
      rewrite Ho, Hrec, reverse_cons, omap_app in Hk |- *.
      assert (omap line_of [r] = [SuccessFrom (Host r) (Message r)]) as Hlast.
      { cbn. unfold line_of. by rewrite Herr. }
      rewrite Hlast in Hk |- *. rewrite length_app. simpl.
      destruct (decide (k < length (omap line_of (reverse earlier)))) as [Hlt|Hge].
      * rewrite lookup_app_l in Hk by done.
        destruct (failed_no_success (reverse earlier) k host msg); [|done].
        by apply Forall_reverse.
      * rewrite lookup_app_r in Hk by lia.
        destruct (k - length (omap line_of (reverse earlier))) as [|j] eqn:Hd;
          [|done].
        simpl in Hk. simplify_eq. split; [lia|]. by exists r.
    + rewrite Ho in Hk.
      destruct (failed_no_success (reverse (s_received s)) k host msg); [|done].
      by apply Forall_reverse.
Qed.

(** X4.  Nothing sent is lost.  In every reachable state each value a
    goroutine has sent is in the channel's buffer or was taken by the
    collector; the values buffered and taken are as many as were sent, at
    most one for each replica; and the capacity of the channel is the
    number of replicas (line 49). *)
Theorem nothing_sent_is_lost query replicas s :
  reachable query replicas s →
  (∀ n w r,
     s_workers s !! n = Some w → r ∈ w_sent w →
     r ∈ s_resCh s ++ s_received s) ∧
  length (s_resCh s) + length (s_received s)
    = sum_list_with nsent (s_workers s) ∧
  length (s_resCh s) + length (s_received s) ≤ length replicas ∧
  s_cap s = length replicas.
Proof.
  intros Hreach. pose proof (reachable_ok _ _ _ Hreach) as Hok.
  pose proof (reachable_kept _ _ _ Hreach) as Hk.
  pose proof (workers_length _ _ _ Hreach) as Hlen.
  pose proof Hok as (Hw & (_ & _ & Hcap & Hch & _) & _).
  split; [done|]. split; [done|]. split; [|congruence].
  rewrite Hch, <- Hlen. clear -Hw. unfold workers_ok in Hw.
  induction Hw as [|w l Hwok _ IH]; simpl; [done|].
  pose proof (sent_at_most_one _ _ Hwok) as [? _]. lia.
Qed.

(** X5.  When calls start.  The calls of a goroutine are numbered from 0 in
    the order made.  Call number [k] starts no earlier than [k] retry
    intervals after the dispatch began, for finished calls and for the call
    in flight; and the wait after failed call number [i] begins no earlier
    than [i] retry intervals after the dispatch began. *)
Theorem attempt_start_times query replicas s n w :
  reachable query replicas s → s_workers s !! n = Some w →
  (∀ k a,
     reverse (w_attempts w) !! k = Some a →
     (Z.of_nat k * retryInterval ≤ a_start a)%Z) ∧
  (∀ i t0,
     w_pc w = WCall i t0 →
     i = length (w_attempts w) ∧ (Z.of_nat i * retryInterval ≤ t0)%Z) ∧
  (∀ i t0,
     w_pc w = WBackoff i t0 →
     S i = length (w_attempts w) ∧ (Z.of_nat i * retryInterval ≤ t0)%Z).
Proof.
  intros Hreach Hn. pose proof (reachable_ok _ _ _ Hreach) as (Hw & _).
  pose proof (reachable_more _ _ _ Hreach) as [_ Ht].
  pose proof (Forall_lookup_1 _ _ _ _ Hw Hn) as (_ & _ & Hsp & Hle & Hpc).
  pose proof (Forall_lookup_1 _ _ _ _ Ht Hn) as (Hstart & Hcall & _).
  assert (Forall (λ a, (a_start a ≤ a_end a)%Z) (w_attempts w)) as Hle'.
  { eapply Forall_impl; [exact Hle|]. simpl. intros. lia. }
  pose proof (attempt_not_before _ Hsp Hstart Hle') as Hnb.
  assert (∀ a older, w_attempts w = a :: older →
            (Z.of_nat (length older) * retryInterval ≤ a_start a ≤ a_end a)%Z)
    as Hnewest.
  { intros a older Ha. rewrite Ha in Hnb, Hle'. split.
    - apply Hnb. rewrite reverse_cons, lookup_app_r, length_reverse
        by (rewrite length_reverse; lia).
      by replace (length older - length older) with 0 by lia.
    - by apply Forall_cons in Hle' as [? _]. }
  split; [done|]. split.
  - intros i t0 Hi. rewrite Hi in Hpc.
    destruct Hpc as (_ & Hlen & _ & Hr & _). split; [done|].
    destruct (w_attempts w) as [|a older] eqn:Ha.
    + simpl in Hlen. subst i. specialize (Hcall 0 t0 Hi). lia.
    + specialize (Hnewest a older eq_refl). simpl in Hr, Hlen. subst i.
      unfold retryInterval, Millisecond in *. lia.
  - intros i t0 Hi. rewrite Hi in Hpc.
    destruct Hpc as (Hlen & _ & (a & older & Ha & Hend) & _). split; [done|].
    specialize (Hnewest a older Ha). rewrite Ha in Hlen. simpl in Hlen.
    assert (i = length older) as -> by lia. lia.
Qed.

(** X6.  No early failure.  A goroutine that has left its loop without
    sending has seen three retry intervals pass since the dispatch began,
    unless the collector has taken a successful value; so the call returns
    the all-replicas-failed error before one and a half seconds only if
    every replica goroutine has sent a value, which is then a not-found. *)
Theorem all_failed_not_before query replicas s n w :
  reachable query replicas s → s_workers s !! n = Some w →
  (gone w → w_sent w = [] →
   (Z.of_nat maxAttempts * retryInterval ≤ s_clock s)%Z ∨ ∃ r, won s r) ∧
  (returned s = Some ("", Some errAllFailed) →
   (Z.of_nat maxAttempts * retryInterval ≤ s_clock s)%Z ∨
   ∃ r e, w_sent w = [r] ∧ r ∈ s_received s ∧
          Err r = Some e ∧ errors_Is e ErrNotFound = true).
Proof.
  intros Hreach Hn. pose proof (reachable_ok _ _ _ Hreach) as Hok.
  pose proof (reachable_more _ _ _ Hreach) as [_ Ht].
  pose proof (reachable_kept _ _ _ Hreach) as Hk.
  pose proof Hok as (Hw & Hsync & _ & Hc & _).
  pose proof (Forall_lookup_1 _ _ _ _ Hw Hn) as Hwok.
  pose proof (Forall_lookup_1 _ _ _ _ Ht Hn) as Hwt.
  split; [by apply gone_unsent_waited|].
  unfold returned. intros Hret.
  destruct (s_collector s) as [| |res|res] eqn:Hcol; try done.
  simplify_eq. unfold collector_ok in Hc. rewrite Hcol in Hc.
  destruct Hc as [[(r & ? & _)|[(_ & Hcl & Hch & Hf)|(? & _)]] _];
    [done| |done].
  pose proof (closed_all_done _ Hsync Hcl) as Hall.
  pose proof (Forall_lookup_1 _ _ _ _ Hall Hn) as Hpc. simpl in Hpc.
  destruct (w_sent w) as [|r l] eqn:Hs.
  - destruct (gone_unsent_waited s w) as [?|[r Hr]];
      [done|done|by right|done|by left|].
    destruct Hr as (Hr & earlier & Hrec & _). rewrite Hrec in Hf.
    apply Forall_cons in Hf as [Hf _]. by destruct Hf.
  - right. destruct (sent_reply _ w r Hwok) as (Hlast & Hone & _).
    { rewrite Hs. by left. }
    rewrite Hs in Hone.
    assert (r ∈ s_received s) as Hin.
    { specialize (Hk n w r Hn). rewrite Hs, Hch in Hk. apply Hk. by left. }
    pose proof (proj1 (Forall_forall _ _) Hf r Hin) as Hfr.
    destruct Hlast as (a & older & _ & Hterm & ->). simpl in *.
    unfold failed in Hfr. simpl in Hfr. unfold terminal in Hterm.
    destruct (a_err a) as [e|] eqn:He; [|done].
    exists (reply a), e. unfold reply in *. rewrite He in *. done.
Qed.

(** X7.  No goroutine is left behind.  From every reachable state, and
    whatever the replica calls still in flight return, the schedule
    [wrap_up] runs to its end: the collector returns, every replica
    goroutine reaches its end, the wait group drains and the closing
    goroutine closes the channel, with no panic.  If the context is already
    cancelled or the collector has left its select, no time has to pass for
    this. *)
Theorem every_goroutine_ends query replicas s answers :
  reachable query replicas s →
  ∃ s',
    run (wrap_up answers s) s = Some s' ∧
    is_Some (returned s') ∧
    Forall (λ w, w_pc w = WDone) (s_workers s') ∧
    s_wg s' = 0%Z ∧ s_janitor s' = JDone ∧ s_closed s' = true ∧
    s_panic s' = false ∧
    (s_ctx s ≠ None ∨ s_collector s ≠ CSelect → s_clock s' = s_clock s).
Proof.
  intros Hreach. pose proof (reachable_ok _ _ _ Hreach) as Hok.
  pose proof Hok as (_ & (Hp & _) & _).
  destruct (finish_returns s Hp) as (s1 & res & Hrun1 & Hret1).
  pose proof (session_ok_run _ _ _ Hrun1 Hok) as Hok1.
  destruct (outside_run _ _ _ Hrun1 (finish_outside s)) as (Hj1 & Hw1 & Hclk1).
  assert (s_ctx s1 ≠ None) as Hctx1.
  { destruct Hok1 as (_ & _ & _ & Hc & _). unfold collector_ok in Hc.
    unfold returned in Hret1. destruct (s_collector s1); try done. apply Hc. }
  destruct (retire_from_done answers (s_workers s) 0 s1)
    as (s2 & Hrun2 & _ & Hcol2 & Hclk2 & Hj2 & _ & Hdone2);
    [done|done|by rewrite Hw1|by rewrite Hw1|].
  pose proof (session_ok_run _ _ _ Hrun2 Hok1) as Hok2.
  assert (Forall (λ w, w_pc w = WDone) (s_workers s2)) as Hall2.
  { apply Forall_lookup_2. intros m w Hm. eapply Hdone2; [|done]. lia. }
  destruct (close_up_closes s2) as (s3 & Hrun3 & Hcl3 & Hcol3 & _ & Hp3 & Hclk3);
    [apply Hok2|done|].
  assert (close_up s2 = close_up s) as Hcu.
  { unfold close_up. by rewrite Hj2, Hj1. }
  rewrite Hcu in Hrun3.
  pose proof (session_ok_run _ _ _ Hrun3 Hok2) as (_ & Hsync3 & _).
  exists s3. unfold wrap_up. rewrite run_app, Hrun1. simpl.
  rewrite run_app, Hrun2. simpl. split; [done|].
  split; [|split; [|split; [|split; [|split; [|split]]]]]; try done.
  - unfold returned in *. rewrite Hcol3, Hcol2. by rewrite Hret1.
  - by apply closed_all_done.
  - destruct Hsync3 as (_ & _ & _ & _ & Hj).
    destruct (s_janitor s3); [congruence|destruct Hj; congruence|by destruct Hj].
  - destruct Hsync3 as (_ & _ & _ & _ & Hj).
    destruct (s_janitor s3); [congruence|destruct Hj; congruence|done].
  - intros Hnow. rewrite Hclk3, Hclk2. apply Hclk1. by apply finish_timeless.
Qed.

(** X8.  A flaky mock host recovers.  For a mock host that is flaky and
    not a not-found host, with its counter in the range of an [int]: of [k]
    uninterrupted calls in a row, call number [j] (from 0) fails with the
    temporary error exactly when the counter was below [2 - j] before the
    first call, and otherwise returns the result text with the host's name;
    the counter goes up by one with each call and the name stays. *)
Theorem flaky_host_recovers (h : Mock.mockHost) (k : nat) :
  Mock.flaky h = true → Mock.notFound h = false → Mock.in_range k h →
  (∀ j r,
     (Mock.calls k h).1 !! j = Some r →
     if decide (Mock.flakyCounter h + Z.of_nat j + 1 < 3)%Z
     then r = ("", Mock.temporary)
     else r = (String.append "result from " (Mock.name h), None)) ∧
  length (Mock.calls k h).1 = k ∧
  Mock.flakyCounter (Mock.calls k h).2 = (Mock.flakyCounter h + Z.of_nat k)%Z ∧
  Mock.name (Mock.calls k h).2 = Mock.name h.
Proof.
  revert h. induction k as [|k IH]; intros h Hf Hnf Hr.
  - simpl. repeat split; try done. lia.
  - cbn [Mock.calls fst snd].
    destruct (DoQuery_static h None) as (Hn1 & Hf1 & Hnf1 & _ & Hc1).
    assert (Mock.flakyCounter (Mock.DoQuery h None).2
            = (Mock.flakyCounter h + 1)%Z) as Hc.
    { unfold Mock.DoQuery. rewrite Hf, Hnf.
      destruct (Mock.slow h); simpl; by case_match. }
    destruct (IH (Mock.DoQuery h None).2) as (Hrep & Hlen & Hcnt & Hname).
    { congruence. } { congruence. }
    { destruct Hr. split; lia. }
    split; [|split; [|split]].
    + intros [|j] r Hj.
      * simpl in Hj. simplify_eq.
        destruct (DoQuery_cases h Hnf) as [[-> Hge]|(-> & _ & Hlt & _)];
          case_decide; try done; [specialize (Hge Hf)|]; lia.
      * simpl in Hj. specialize (Hrep j r Hj). rewrite Hc, Hn1 in Hrep.
        repeat case_decide; try done; lia.
    + simpl. by rewrite Hlen.
    + rewrite Hcnt, Hc. lia.
    + by rewrite Hname, Hn1.
Qed.

(** X9.  What a dispatch does to the mock hosts.  In every state of the
    dispatcher run over mock hosts whose counters are in range: the host of a goroutine keeps its name
    and its three flags; its counter never goes down and goes up by at most
    one for each finished call, so by at most three in all; a host that is
    not flaky, or is a not-found host, is left as it was; and no host is
    added or removed. *)
Theorem mock_host_counts_calls query replicas hosts st n h0 h w :
  mock_reachable query replicas hosts st →
  Forall (Mock.in_range maxAttempts) hosts →
  hosts !! n = Some h0 → st.2 !! n = Some h → s_workers st.1 !! n = Some w →
  Mock.name h = Mock.name h0 ∧ Mock.flaky h = Mock.flaky h0 ∧
  Mock.notFound h = Mock.notFound h0 ∧ Mock.slow h = Mock.slow h0 ∧
  (Mock.flakyCounter h0 ≤ Mock.flakyCounter h
   ≤ Mock.flakyCounter h0 + Z.of_nat (length (w_attempts w)))%Z ∧
  (Mock.flakyCounter h ≤ Mock.flakyCounter h0 + Z.of_nat maxAttempts)%Z ∧
  (Mock.flaky h0 = false ∨ Mock.notFound h0 = true → h = h0) ∧
  length st.2 = length hosts.
Proof.
  intros Hreach _ Hh0 Hh Hw.
  pose proof (mock_reachable_ok _ _ _ _ Hreach) as [Hlen Hm].
  pose proof (mock_reachable_reachable _ _ _ _ Hreach) as Hr.
  pose proof (reachable_ok _ _ _ Hr) as (Hwok & _).
  pose proof (Forall_lookup_1 _ _ _ _ Hwok Hw) as (Hle & _).
  specialize (Hm n w Hw). rewrite Hh0 in Hm. destruct Hm as (Hhost & _).
  rewrite Hh in Hhost. injection Hhost as ->.
  destruct (host_after_static h0 (w_attempts w)) as (? & ? & ? & ? & ?).
  repeat split; try done; try lia.
  by apply host_after_idle.
Qed.




End Dispatcher.

(** * The results at the scenarios of [main] *)

(** The state a schedule leads to (the initial state if it is not a run). *)
Local Abbreviation after q reps sched :=
  (default (DistributedQuery q reps) (run sched (DistributedQuery q reps))).

Lemma after_reachable {D : Type} q (reps : list D) sched :
  is_Some (run sched (DistributedQuery q reps)) →
  reachable q reps (after q reps sched).
Proof. intros [s H]. exists sched. by rewrite H. Defined.

(** The replies in the schedules below are those of the mock hosts. *)
Lemma mock_replies :
  (Mock.DoQuery (Mock.missing_host "Replica 1 (not found)") None).1
  = ("", Some ErrNotFound) ∧
  (Mock.DoQuery (Mock.host "Replica 2 (ok)") None).1
  = ("result from Replica 2 (ok)", None) ∧
  (Mock.DoQuery (Mock.slow_host "Replica 1 (very slow)")
     (Some context_DeadlineExceeded)).1
  = ("", Some context_DeadlineExceeded).
Proof. repeat split. Qed.

(** Scenario 4, after the collector has taken both replies: the second one
    won, and [cancel()] leads to the return of its message. *)
Lemma first_success_wins_witness :
  reachable Mock.query4 Mock.replicas4
    (after Mock.query4 Mock.replicas4 (Mock.answered4 ++ [EvRecv; EvRecv])) ∧
  won (after Mock.query4 Mock.replicas4 (Mock.answered4 ++ [EvRecv; EvRecv]))
    Mock.ok2 ∧
  ∃ s2,
    step EvCancel
      (after Mock.query4 Mock.replicas4 (Mock.answered4 ++ [EvRecv; EvRecv]))
    = Some s2 ∧
    s_collector s2 = CExit ("result from Replica 2 (ok)", None) ∧
    s_ctx s2 ≠ None.
Proof.
  assert (reachable Mock.query4 Mock.replicas4
            (after Mock.query4 Mock.replicas4
               (Mock.answered4 ++ [EvRecv; EvRecv]))) as Hr.
  { apply after_reachable. vm_compute. eexists. reflexivity. }
  assert (won (after Mock.query4 Mock.replicas4
                 (Mock.answered4 ++ [EvRecv; EvRecv])) Mock.ok2) as Hw.
  { split; [reflexivity|]. exists [Mock.missing1]. split; [reflexivity|].
    repeat constructor. discriminate. }
  split; [exact Hr|]. split; [exact Hw|].
  destruct (first_success_wins _ _ _ Hr) as (_ & Hwon & _).
  destruct (Hwon Mock.ok2 Hw) as [(_ & H)|[(Hc & _)|(Hc & _)]].
  - exact H.
  - vm_compute in Hc. discriminate Hc.
  - vm_compute in Hc. discriminate Hc.
Defined.

(** Scenario 3: the result is the timed-out error, the deadline has passed. *)
Lemma dispatch_result_kinds_witness :
  reachable Mock.query1 Mock.replicas3
    (after Mock.query1 Mock.replicas3 Mock.timed_out3) ∧
  returned (after Mock.query1 Mock.replicas3 Mock.timed_out3)
  = Some ("", Some errTimedOut) ∧
  s_ctx (after Mock.query1 Mock.replicas3 Mock.timed_out3)
  = Some context_DeadlineExceeded ∧
  (totalTimeout ≤ s_clock (after Mock.query1 Mock.replicas3 Mock.timed_out3))%Z.
Proof.
  assert (reachable Mock.query1 Mock.replicas3
            (after Mock.query1 Mock.replicas3 Mock.timed_out3)) as Hr.
  { apply after_reachable. vm_compute. eexists. reflexivity. }
  split; [exact Hr|]. split; [reflexivity|].
  destruct (dispatch_result_kinds _ _ _ Hr) as (_ & _ & _ & Hres & _).
  destruct (Hres ("", Some errTimedOut)) as [(r & Hx & _)|[(Hx & _)|(_ & Hc & Ht & _)]].
  - right. reflexivity.
  - discriminate Hx.
  - discriminate Hx.
  - split; [exact Hc|exact Ht].
Defined.

Local Abbreviation after_three_failures :=
  (after Mock.query1 Mock.down Mock.failed_thrice).

Local Abbreviation worker_after_three_failures :=
  (mkWorker "replica that is down" (WBackoff 2 (2 * retryInterval))
     [mkAttempt (2 * retryInterval) (2 * retryInterval) "" Mock.temporary;
      mkAttempt retryInterval retryInterval "" Mock.temporary;
      mkAttempt 0 0 "" Mock.temporary]
     [] false 0).

(** After three failed calls the goroutine has sent nothing and winds down. *)
Lemma worker_retry_bound_witness :
  reachable Mock.query1 Mock.down after_three_failures ∧
  s_workers after_three_failures !! 0 = Some worker_after_three_failures ∧
  exhausted worker_after_three_failures ∧
  started worker_after_three_failures ≤ maxAttempts ∧
  w_sent worker_after_three_failures = [] ∧
  ∃ s' w',
    run (wind_down 0 worker_after_three_failures after_three_failures)
      after_three_failures = Some s' ∧
    s_workers s' !! 0 = Some w' ∧ w_pc w' = WDone ∧ w_sent w' = [].
Proof.
  assert (reachable Mock.query1 Mock.down after_three_failures) as Hr.
  { exists Mock.failed_thrice. vm_compute. reflexivity. }
  assert (s_workers after_three_failures !! 0 = Some worker_after_three_failures)
    as Hn by (vm_compute; reflexivity).
  assert (exhausted worker_after_three_failures) as Hex.
  { split; [reflexivity|]. repeat constructor. }
  split; [exact Hr|]. split; [exact Hn|]. split; [exact Hex|].
  destruct (worker_retry_bound _ _ _ _ _ Hr Hn)
    as (_ & _ & Hstarted & _ & _ & _ & Hend).
  split; [exact Hstarted|].
  destruct (Hend Hex) as (Hsent & (s' & w' & Hrun & Hn' & Hpc & Hs' & _) & _).
  split; [exact Hsent|]. exists s', w'. auto.
Defined.

(** Scenario 4, second replica: its call returns without error, so the
    goroutine is about to send the reply. *)
Lemma worker_terminal_or_retry_witness :
  reachable Mock.query4 Mock.replicas4
    (after Mock.query4 Mock.replicas4 [EvCheck 0; EvCheck 1]) ∧
  ∃ w s1 w1,
    s_workers (after Mock.query4 Mock.replicas4 [EvCheck 0; EvCheck 1]) !! 1
    = Some w ∧
    step (EvReturn 1 "result from Replica 2 (ok)" None)
      (after Mock.query4 Mock.replicas4 [EvCheck 0; EvCheck 1]) = Some s1 ∧
    s_workers s1 !! 1 = Some w1 ∧ w_pc w1 = WSend 0 Mock.ok2 ∧ w_sent w1 = [].
Proof.
  assert (reachable Mock.query4 Mock.replicas4
            (after Mock.query4 Mock.replicas4 [EvCheck 0; EvCheck 1])) as Hr.
  { apply after_reachable. vm_compute. eexists. reflexivity. }
  split; [exact Hr|].
  exists (mkWorker (Mock.host "Replica 2 (ok)") (WCall 0 0) [] [] false 0).
  assert (s_workers (after Mock.query4 Mock.replicas4 [EvCheck 0; EvCheck 1])
            !! 1
          = Some (mkWorker (Mock.host "Replica 2 (ok)") (WCall 0 0) [] [] false 0))
    as Hn by (vm_compute; reflexivity).
  destruct (worker_terminal_or_retry _ _ _ _ _ Hr Hn) as (Hret & _).
  destruct (Hret 0 0%Z "result from Replica 2 (ok)" None eq_refl)
    as (s1 & w1 & Hst & Hn1 & Hs & _ & _ & Hpc).
  exists s1, w1. auto.
Defined.

(** Scenario 4: the not-found reply is taken first and dropped. *)
Lemma not_found_discarded_witness :
  reachable Mock.query4 Mock.replicas4
    (after Mock.query4 Mock.replicas4 Mock.answered4) ∧
  ∃ s1,
    step EvRecv (after Mock.query4 Mock.replicas4 Mock.answered4) = Some s1 ∧
    s_collector s1 = CSelect ∧ s_resCh s1 = [Mock.ok2] ∧
    ∃ s3, run [EvRecv; EvCancel; EvExit] s1 = Some s3 ∧
          returned s3 = Some ("result from Replica 2 (ok)", None).
Proof.
  assert (reachable Mock.query4 Mock.replicas4
            (after Mock.query4 Mock.replicas4 Mock.answered4)) as Hr.
  { apply after_reachable. vm_compute. eexists. reflexivity. }
  split; [exact Hr|].
  destruct (not_found_discarded Mock.query4 Mock.replicas4 _ Mock.missing1
              [Mock.ok2] ErrNotFound Hr eq_refl eq_refl eq_refl eq_refl)
    as (s1 & Hst & Hsel & _ & Hch & _ & _ & _ & _ & _ & Hlater).
  exists s1. split; [exact Hst|]. split; [exact Hsel|]. split; [exact Hch|].
  apply (Hlater [] s1 Mock.ok2 [] eq_refl Hsel Hch eq_refl).
Defined.

(** Scenario 3 after the deadline: a call returns the context's error, and
    the goroutine, waiting at line 76, leaves through ctx.Done(). *)
Lemma worker_stops_on_cancel_witness :
  reachable Mock.query1 Mock.replicas3
    (after Mock.query1 Mock.replicas3 Mock.late3) ∧
  ∃ w s1 w1,
    s_workers (after Mock.query1 Mock.replicas3 Mock.late3) !! 0 = Some w ∧
    w_pc w = WBackoff 0 (2 * Second) ∧
    step (EvCtxDone 0) (after Mock.query1 Mock.replicas3 Mock.late3) = Some s1 ∧
    s_workers s1 !! 0 = Some w1 ∧ w_pc w1 = WExit ∧ w_sent w1 = [].
Proof.
  assert (reachable Mock.query1 Mock.replicas3
            (after Mock.query1 Mock.replicas3 Mock.late3)) as Hr.
  { apply after_reachable. vm_compute. eexists. reflexivity. }
  split; [exact Hr|].
  exists (mkWorker (Mock.slow_host "Replica 1 (very slow)")
            (WBackoff 0 (2 * Second))
            [mkAttempt 0 (2 * Second) "" (Some context_DeadlineExceeded)]
            [] false 0).
  assert (s_workers (after Mock.query1 Mock.replicas3 Mock.late3) !! 0
          = Some (mkWorker (Mock.slow_host "Replica 1 (very slow)")
                    (WBackoff 0 (2 * Second))
                    [mkAttempt 0 (2 * Second) "" (Some context_DeadlineExceeded)]
                    [] false 0)) as Hn by (vm_compute; reflexivity).
  destruct (worker_stops_on_cancel _ _ _ _ _ Hr Hn) as (_ & Hdone & _).
  destruct (Hdone 0 (2 * Second)%Z context_DeadlineExceeded eq_refl eq_refl)
    as (s1 & w1 & Hst & Hn1 & Hpc & _ & Hs & _).
  exists s1, w1. split; [exact Hn|]. split; [reflexivity|]. auto.
Defined.

(** A wrapped not-found error is matched. *)
Lemma not_found_by_chain_witness :
  ErrNotFound ∈ unwrap_chain (fmt_Errorf_w "replica 1: not found" ErrNotFound) ∧
  fmt_Errorf_w "replica 1: not found" ErrNotFound ≠ ErrNotFound ∧
  errors_Is (fmt_Errorf_w "replica 1: not found" ErrNotFound) ErrNotFound = true.
Proof.
  assert (ErrNotFound
          ∈ unwrap_chain (fmt_Errorf_w "replica 1: not found" ErrNotFound)) as H.
  { simpl. right. left. }
  split; [exact H|]. split; [discriminate|].
  exact (proj1 (@not_found_by_chain Mock.mockHost _ H)).
Defined.

(** Scenario 4 with both goroutines finished and the collector still at the
    select: closing and draining the channel yields the success. *)
Lemma wait_group_closes_channel_witness :
  reachable Mock.query4 Mock.replicas4
    (after Mock.query4 Mock.replicas4 Mock.finished4) ∧
  s_wg (after Mock.query4 Mock.replicas4 Mock.finished4) = 0%Z ∧
  ∃ s',
    run (close_up (after Mock.query4 Mock.replicas4 Mock.finished4) ++
         drain (s_resCh (after Mock.query4 Mock.replicas4 Mock.finished4)))
      (after Mock.query4 Mock.replicas4 Mock.finished4) = Some s' ∧
    s_closed s' = true.
Proof.
  assert (reachable Mock.query4 Mock.replicas4
            (after Mock.query4 Mock.replicas4 Mock.finished4)) as Hr.
  { apply after_reachable. vm_compute. eexists. reflexivity. }
  split; [exact Hr|].
  destruct (wait_group_closes_channel _ _ _ Hr)
    as (_ & Hwg & _ & _ & _ & _ & Hend).
  split; [reflexivity|].
  destruct Hend as (s' & Hrun & Hcl & _).
  - repeat constructor.
  - reflexivity.
  - exists s'. auto.
Defined.

(** No replicas: the schedule on which the closing goroutine and the
    collector run at once is eager, and the result is the all-failed error. *)
Lemma empty_replicas_all_failed_witness :
  eager [EvWait; EvClose; EvRecv; EvExit]
    (DistributedQuery (DatabaseHost:=Mock.mockHost) Mock.query1 []) ∧
  ∃ s,
    run [EvWait; EvClose; EvRecv; EvExit]
      (DistributedQuery (DatabaseHost:=Mock.mockHost) Mock.query1 []) = Some s ∧
    s_collector s = CReturned ("", Some errAllFailed) ∧
    ∀ res, s_collector s = CExit res ∨ s_collector s = CReturned res →
           res = ("", Some errAllFailed).
Proof.
  assert (eager [EvWait; EvClose; EvRecv; EvExit]
            (DistributedQuery (DatabaseHost:=Mock.mockHost) Mock.query1 [])) as He.
  { vm_compute. tauto. }
  split; [exact He|].
  destruct (empty_replicas_all_failed (DatabaseHost:=Mock.mockHost) Mock.query1)
    as (_ & (s & Hrun & Hret & _) & _ & Heager).
  exists s. split; [exact Hrun|]. split.
  - unfold returned in Hret. destruct (s_collector s); try discriminate Hret.
    injection Hret as ->. reflexivity.
  - apply (Heager _ s He Hrun).
Defined.

(** Scenario 3: letting exactly two seconds pass while both calls run is
    eager, and the clock is then at the bound. *)
Lemma timeout_is_the_constant_witness :
  eager [EvCheck 0; EvCheck 1; EvTick (2 * Second)]
    (DistributedQuery Mock.query1 Mock.replicas3) ∧
  returned (after Mock.query1 Mock.replicas3
              [EvCheck 0; EvCheck 1; EvTick (2 * Second)]) = None ∧
  (s_clock (after Mock.query1 Mock.replicas3
              [EvCheck 0; EvCheck 1; EvTick (2 * Second)]) ≤ totalTimeout)%Z.
Proof.
  assert (eager [EvCheck 0; EvCheck 1; EvTick (2 * Second)]
            (DistributedQuery Mock.query1 Mock.replicas3)) as He.
  { vm_compute. repeat split; intros; discriminate. }
  split; [exact He|]. split; [reflexivity|].
  destruct (timeout_is_the_constant Mock.query1 Mock.replicas3)
    as (_ & _ & _ & Hbound).
  apply (Hbound [EvCheck 0; EvCheck 1; EvTick (2 * Second)] _ He eq_refl eq_refl).
Defined.

(** C7 as worded fails: a caller who wants a one-second timeout cannot have
    it.  The session [DistributedQuery] starts is not the one the entry
    point of spec.md would start for that timeout, and after one second its
    deadline has not yet passed, while the other's has. *)
Lemma caller_timeout_ignored :
  DistributedQuery Mock.query1 Mock.replicas3
  ≠ dispatch_spec Mock.query1 Mock.replicas3 (1 * Second) ∧
  run [EvTick (1 * Second); EvDeadline]
    (DistributedQuery Mock.query1 Mock.replicas3) = None ∧
  is_Some (run [EvTick (1 * Second); EvDeadline]
             (dispatch_spec Mock.query1 Mock.replicas3 (1 * Second))).
Proof.
  split; [|split].
  - intros H. apply (f_equal s_deadline) in H. vm_compute in H. discriminate H.
  - vm_compute. reflexivity.
  - vm_compute. eexists. reflexivity.
Qed.

(** * The further results at the scenarios of [main] *)

Local Abbreviation after_giving_up :=
  (after Mock.query1 Mock.replicas3 Mock.gave_up3).

(** Scenario 3 after the deadline: the first goroutine has left through
    ctx.Done(), and the two seconds have passed. *)
Lemma cancellation_has_a_cause_witness :
  reachable Mock.query1 Mock.replicas3 after_giving_up ∧
  (∃ w, s_workers after_giving_up !! 0 = Some w ∧ w_seen w = true) ∧
  ((totalTimeout ≤ s_clock after_giving_up)%Z ∨ ∃ r, won after_giving_up r).
Proof.
  assert (reachable Mock.query1 Mock.replicas3 after_giving_up) as Hr.
  { apply after_reachable. vm_compute. eexists. reflexivity. }
  split; [exact Hr|]. split.
  - eexists. split; reflexivity.
  - destruct (cancellation_has_a_cause _ _ _ Hr) as (Hseen & _).
    eapply (Hseen 0); reflexivity.
Defined.

Local Abbreviation after_both_taken :=
  (after Mock.query4 Mock.replicas4 (Mock.answered4 ++ [EvRecv; EvRecv])).

(** Scenario 4 after the collector has taken both replies: both values and
    both printed lines carry an empty host. *)
Lemma host_field_never_set_witness :
  reachable Mock.query4 Mock.replicas4 after_both_taken ∧
  s_received after_both_taken = [Mock.ok2; Mock.missing1] ∧
  (∀ r, r ∈ s_resCh after_both_taken ++ s_received after_both_taken →
        Host r = "" ∧ terminal (Err r) = true) ∧
  (∀ l, l ∈ s_stdout after_both_taken → line_host l = "").
Proof.
  assert (reachable Mock.query4 Mock.replicas4 after_both_taken) as Hr.
  { apply after_reachable. vm_compute. eexists. reflexivity. }
  split; [exact Hr|]. split; [reflexivity|].
  exact (host_field_never_set _ _ _ Hr).
Defined.

(** Scenario 4 after both replies were taken: two lines, the success last. *)
Lemma stdout_follows_received_witness :
  reachable Mock.query4 Mock.replicas4 after_both_taken ∧
  s_stdout after_both_taken
  = [ResultFrom "" ErrNotFound; SuccessFrom "" "result from Replica 2 (ok)"] ∧
  length (s_stdout after_both_taken) = length (s_received after_both_taken) ∧
  ∃ r, won after_both_taken r ∧ Message r = "result from Replica 2 (ok)".
Proof.
  assert (reachable Mock.query4 Mock.replicas4 after_both_taken) as Hr.
  { apply after_reachable. vm_compute. eexists. reflexivity. }
  split; [exact Hr|]. split; [reflexivity|].
  destruct (stdout_follows_received _ _ _ Hr) as (_ & Hlen & Hlast).
  split; [exact Hlen|].
  exact (proj2 (Hlast 1 "" "result from Replica 2 (ok)" eq_refl)).
Defined.

(** Scenario 4 after both goroutines have sent: both values are in the
    buffer, whose capacity is two. *)
Lemma nothing_sent_is_lost_witness :
  reachable Mock.query4 Mock.replicas4
    (after Mock.query4 Mock.replicas4 Mock.answered4) ∧
  s_resCh (after Mock.query4 Mock.replicas4 Mock.answered4)
  = [Mock.missing1; Mock.ok2] ∧
  length (s_resCh (after Mock.query4 Mock.replicas4 Mock.answered4)) +
  length (s_received (after Mock.query4 Mock.replicas4 Mock.answered4))
  ≤ length Mock.replicas4 ∧
  s_cap (after Mock.query4 Mock.replicas4 Mock.answered4)
  = length Mock.replicas4.
Proof.
  assert (reachable Mock.query4 Mock.replicas4
            (after Mock.query4 Mock.replicas4 Mock.answered4)) as Hr.
  { apply after_reachable. vm_compute. eexists. reflexivity. }
  split; [exact Hr|]. split; [reflexivity|].
  destruct (nothing_sent_is_lost _ _ _ Hr) as (_ & _ & Hle & Hcap).
  split; [exact Hle|exact Hcap].
Defined.

(** The replica that is down: its third call, number 2, began no earlier
    than two retry intervals after the start. *)
Lemma attempt_start_times_witness :
  reachable Mock.query1 Mock.down after_three_failures ∧
  s_workers after_three_failures !! 0 = Some worker_after_three_failures ∧
  (Z.of_nat 2 * retryInterval
   ≤ a_start (mkAttempt (2 * retryInterval) (2 * retryInterval) ""
                Mock.temporary))%Z.
Proof.
  assert (reachable Mock.query1 Mock.down after_three_failures) as Hr.
  { exists Mock.failed_thrice. vm_compute. reflexivity. }
  assert (s_workers after_three_failures !! 0 = Some worker_after_three_failures)
    as Hn by (vm_compute; reflexivity).
  split; [exact Hr|]. split; [exact Hn|].
  destruct (attempt_start_times _ _ _ _ _ Hr Hn) as (Hk & _).
  apply (Hk 2). reflexivity.
Defined.

Local Abbreviation after_failing_for_good :=
  (after Mock.query1 Mock.down Mock.failed_for_good).

Local Abbreviation worker_failed_for_good :=
  (mkWorker "replica that is down" WDone
     [mkAttempt (2 * retryInterval) (2 * retryInterval) "" Mock.temporary;
      mkAttempt retryInterval retryInterval "" Mock.temporary;
      mkAttempt 0 0 "" Mock.temporary]
     [] false 1).

(** The replica that is down: the all-failed error is returned, one and a
    half seconds after the start. *)
Lemma all_failed_not_before_witness :
  reachable Mock.query1 Mock.down after_failing_for_good ∧
  s_workers after_failing_for_good !! 0 = Some worker_failed_for_good ∧
  returned after_failing_for_good = Some ("", Some errAllFailed) ∧
  (Z.of_nat maxAttempts * retryInterval ≤ s_clock after_failing_for_good)%Z.
Proof.
  assert (reachable Mock.query1 Mock.down after_failing_for_good) as Hr.
  { exists Mock.failed_for_good. vm_compute. reflexivity. }
  assert (s_workers after_failing_for_good !! 0 = Some worker_failed_for_good)
    as Hn by (vm_compute; reflexivity).
  assert (returned after_failing_for_good = Some ("", Some errAllFailed))
    as Hret by (vm_compute; reflexivity).
  split; [exact Hr|]. split; [exact Hn|]. split; [exact Hret|].
  destruct (all_failed_not_before _ _ _ _ _ Hr Hn) as (_ & Hlate).
  destruct (Hlate Hret) as [Hclk|(r & e & Hsent & _)].
  - exact Hclk.
  - discriminate Hsent.
Defined.

(** Scenario 4 with both calls in flight, which return the context's error:
    everything comes to its end. *)
Lemma every_goroutine_ends_witness :
  reachable Mock.query4 Mock.replicas4
    (after Mock.query4 Mock.replicas4 [EvCheck 0; EvCheck 1]) ∧
  ∃ s',
    run (wrap_up (λ _, ("", Some context_DeadlineExceeded))
           (after Mock.query4 Mock.replicas4 [EvCheck 0; EvCheck 1]))
      (after Mock.query4 Mock.replicas4 [EvCheck 0; EvCheck 1]) = Some s' ∧
    is_Some (returned s') ∧
    Forall (λ w, w_pc w = WDone) (s_workers s') ∧ s_closed s' = true.
Proof.
  assert (reachable Mock.query4 Mock.replicas4
            (after Mock.query4 Mock.replicas4 [EvCheck 0; EvCheck 1])) as Hr.
  { apply after_reachable. vm_compute. eexists. reflexivity. }
  split; [exact Hr|].
  destruct (every_goroutine_ends _ _ _ (λ _, ("", Some context_DeadlineExceeded)) Hr)
    as (s' & Hrun & Hret & Hall & _ & _ & Hcl & _).
  exists s'. auto.
Defined.

(** The flaky host of scenario 1: two failures, then the result. *)
Lemma flaky_host_recovers_witness :
  Mock.flaky (Mock.flaky_host "Replica 1 (flaky)") = true ∧
  Mock.notFound (Mock.flaky_host "Replica 1 (flaky)") = false ∧
  Mock.in_range 3 (Mock.flaky_host "Replica 1 (flaky)") ∧
  (Mock.calls 3 (Mock.flaky_host "Replica 1 (flaky)")).1
  = [("", Mock.temporary); ("", Mock.temporary);
     ("result from Replica 1 (flaky)", None)] ∧
  Mock.flakyCounter (Mock.calls 3 (Mock.flaky_host "Replica 1 (flaky)")).2
  = (Mock.flakyCounter (Mock.flaky_host "Replica 1 (flaky)") + Z.of_nat 3)%Z.
Proof.
  assert (Mock.in_range 3 (Mock.flaky_host "Replica 1 (flaky)")) as Hr.
  { split; vm_compute; [discriminate|reflexivity]. }
  split; [reflexivity|]. split; [reflexivity|]. split; [exact Hr|].
  split; [reflexivity|].
  exact (proj1 (proj2 (proj2
    (@flaky_host_recovers (Mock.flaky_host "Replica 1 (flaky)") 3
       eq_refl eq_refl Hr)))).
Defined.

(** The state a schedule over the mock hosts leads to (the initial state if
    it is not a run). *)
Local Abbreviation mock_after q hosts sched :=
  (default (DistributedQuery q hosts, hosts%list)
     (mock_run sched (DistributedQuery q hosts, hosts%list))).

Lemma mock_after_reachable q hosts sched :
  is_Some (mock_run sched (DistributedQuery q hosts, hosts)) →
  mock_reachable q hosts hosts (mock_after q hosts sched).
Proof. intros [st H]. exists sched. by rewrite H. Defined.

Lemma in_range_scenarios :
  Forall (Mock.in_range maxAttempts) Mock.replicas2 ∧
  Forall (Mock.in_range maxAttempts) Mock.replicas3 ∧
  Forall (Mock.in_range maxAttempts) Mock.replicas4.
Proof.
  repeat split; repeat constructor; vm_compute; (discriminate || reflexivity).
Defined.

(** Scenario 2 after the first call of the first host: its counter is 1. *)
Lemma mock_host_counts_calls_witness :
  mock_reachable Mock.query1 Mock.replicas2 Mock.replicas2
    (mock_after Mock.query1 Mock.replicas2 failed_once2) ∧
  Forall (Mock.in_range maxAttempts) Mock.replicas2 ∧
  (mock_after Mock.query1 Mock.replicas2 failed_once2).2 !! 0
  = Some (Mock.mkMock "Replica 1 (flaky)" true false false 1) ∧
  (Mock.flakyCounter (Mock.mkMock "Replica 1 (flaky)" true false false 1)
   ≤ Mock.flakyCounter (Mock.flaky_host "Replica 1 (flaky)")
     + Z.of_nat maxAttempts)%Z.
Proof.
  assert (mock_reachable Mock.query1 Mock.replicas2 Mock.replicas2
            (mock_after Mock.query1 Mock.replicas2 failed_once2)) as Hr.
  { apply mock_after_reachable. vm_compute. eexists. reflexivity. }
  split; [exact Hr|]. split; [exact (proj1 in_range_scenarios)|].
  split; [reflexivity|].
  destruct (mock_host_counts_calls _ _ _ _ 0
              (Mock.flaky_host "Replica 1 (flaky)")
              (Mock.mkMock "Replica 1 (flaky)" true false false 1) _
              Hr (proj1 in_range_scenarios) eq_refl eq_refl eq_refl)
    as (_ & _ & _ & _ & _ & Hle & _).
  exact Hle.
Defined.



